(** * Vienna photo server: frame placement, compositing and upload retention

    A shallow embedding of the two services of the photo booth server that
    carry its algorithms:

    - [ImageProcessor] (services/ImageProcessor.js): detection of the
      transparent area of a frame, and the sharp pipeline that fits the photo
      into it;
    - [CleanupManager] (utils/cleanup.js) and the triggers of
      [PhotoBoothServer] (server.js): the age and size passes over the
      uploads directory.

    Numbers.  JavaScript numbers holding pixel coordinates, byte counts and
    millisecond time stamps are integers far below 2^53, where binary64
    arithmetic on them is exact; they are modelled in [Z].  The two places
    where the source leaves the integers, [Math.floor(width * 0.2)] and
    [(transparentPixels / totalPixels) * 100 < 5], are modelled with exact
    rationals [Q]; a division by zero yields NaN, modelled by [None].  Module
    [Binary64] gives the same two computations in IEEE 754 arithmetic, and
    [ImageProcessorFacts] checks by evaluation that they agree with the
    exact ones on small frames. *)

From Stdlib Require Import ZArith QArith Qround List Lia Bool String Ascii SpecFloat.
From Stdlib Require Import Permutation Sorted.
Import ListNotations.
Open Scope Z_scope.

(** ** Loops *)

(** [for (let i = 0; i < n; i++)] visits [range n]. *)
Definition range (n : Z) : list Z := map Z.of_nat (seq 0 (Z.to_nat n)).

(** * binary64 *)

(** The two computations of [detectFramePlacement] that leave the integers,
    as IEEE 754 binary64 computes them; [ImageProcessorFacts] compares them
    with the exact ones used in [ImageProcessor]. *)
Module Binary64.

Definition prec : Z := 53.
Definition emax : Z := 1024.

Definition ofZ (n : Z) : spec_float := binary_normalize prec emax n 0 false.

(** The literal [0.2], 0x3FC999999999999A. *)
Definition literal02 : spec_float := S754_finite false 7205759403792794 (-55).

(** [Math.floor] *)
Definition floor (x : spec_float) : option Z :=
  match x with
  | S754_zero _ => Some 0
  | S754_finite s m e =>
      let v := if s then Z.neg m else Z.pos m in
      Some (if 0 <=? e then v * 2 ^ e else v / 2 ^ (- e))
  | _ => None
  end.

(** [Math.floor(n * 0.2)] *)
Definition floorFifth (n : Z) : option Z :=
  floor (SFmul prec emax (ofZ n) literal02).

(** [(transparent / total) * 100 < 5] *)
Definition belowFivePercent (transparent total : Z) : bool :=
  SFltb (SFmul prec emax (SFdiv prec emax (ofZ transparent) (ofZ total)) (ofZ 100))
        (ofZ 5).

End Binary64.

(** * ImageProcessor *)

Module ImageProcessor.

(** The object sharp resolves [raw().toBuffer({resolveWithObject: true})]
    with: [info.width], [info.height], [info.channels] and the sample buffer
    [data], one entry per byte. *)
Record raster := mkRaster {
  width : Z;
  height : Z;
  channels : Z;
  data : list Z
}.

(** The object returned by [detectFramePlacement]. *)
Module Placement.
Record t := mk { top : Z; left : Z; width : Z; height : Z }.
End Placement.

(** [data[i]]: [undefined] outside the buffer. *)
Definition buffer_get (d : list Z) (i : Z) : option Z :=
  if i <? 0 then None else nth_error d (Z.to_nat i).

(** [const index = (y * width + x) * channels;
     const alpha = channels === 4 ? data[index + 3] : 255;] *)
Definition alphaAt (r : raster) (x y : Z) : option Z :=
  let index := (y * width r + x) * channels r in
  if channels r =? 4 then buffer_get (data r) (index + 3) else Some 255.

(** [alpha < 25]; a comparison with [undefined] is false. *)
Definition isTransparent (r : raster) (x y : Z) : bool :=
  match alphaAt r x y with
  | Some alpha => alpha <? 25
  | None => false
  end.

(** The mutable locals of the scan. *)
Record bounds := mkBounds {
  minX : Z;
  minY : Z;
  maxX : Z;
  maxY : Z;
  hasTransparentArea : bool;
  transparentPixels : Z
}.

(** [let minX = width, minY = height, maxX = 0, maxY = 0;
     let hasTransparentArea = false; let transparentPixels = 0;] *)
Definition initialBounds (r : raster) : bounds :=
  mkBounds (width r) (height r) 0 0 false 0.

(** The body of the inner loop. *)
Definition visit (r : raster) (y : Z) (b : bounds) (x : Z) : bounds :=
  if isTransparent r x y then
    mkBounds (Z.min (minX b) x) (Z.min (minY b) y)
             (Z.max (maxX b) x) (Z.max (maxY b) y)
             true (transparentPixels b + 1)
  else b.

(** [for (let x = 0; x < width; x++) { ... }] *)
Definition scanRow (r : raster) (b : bounds) (y : Z) : bounds :=
  fold_left (visit r y) (range (width r)) b.

(** [for (let y = 0; y < height; y++) { ... }] *)
Definition scanFrame (r : raster) : bounds :=
  fold_left (scanRow r) (range (height r)) (initialBounds r).

(** [(transparentPixels / totalPixels) * 100]; [0 / 0] is NaN. *)
Definition transparentPercentage (transparent total : Z) : option Q :=
  if total =? 0 then None
  else Some ((inject_Z transparent / inject_Z total) * 100)%Q.

(** [transparentPercentage < 5]; false on NaN. *)
Definition belowFivePercent (p : option Q) : bool :=
  match p with
  | Some q => match (q ?= 5)%Q with Lt => true | _ => false end
  | None => false
  end.

(** [Math.floor(n * 0.2)] *)
Definition floorFifth (n : Z) : Z := Qfloor (inject_Z n * (2 # 10))%Q.

Definition entireFrame (r : raster) : Placement.t :=
  Placement.mk 0 0 (width r) (height r).

Definition detectFramePlacement (r : raster) : Placement.t :=
  let b := scanFrame r in
  let totalPixels := width r * height r in
  if negb (hasTransparentArea b)
     || belowFivePercent (transparentPercentage (transparentPixels b) totalPixels)
  then entireFrame r
  else
    let placementWidth := maxX b - minX b + 1 in
    let placementHeight := maxY b - minY b + 1 in
    let minWidth := Z.max placementWidth (floorFifth (width r)) in
    let minHeight := Z.max placementHeight (floorFifth (height r)) in
    let finalWidth := Z.min minWidth (width r - minX b) in
    let finalHeight := Z.min minHeight (height r - minY b) in
    Placement.mk (minY b) (minX b) finalWidth finalHeight.

(** *** Vocabulary of the statements *)

(** The pixels of the frame in scan order. *)
Definition pixels (r : raster) : list (Z * Z) :=
  flat_map (fun y => map (fun x => (x, y)) (range (width r))) (range (height r)).

(** The body of the loops at the pixel [p = (x, y)]. *)
Definition visitPixel (r : raster) (b : bounds) (p : Z * Z) : bounds :=
  visit r (snd p) b (fst p).

Definition transparentAt (r : raster) (p : Z * Z) : bool :=
  isTransparent r (fst p) (snd p).

(** How many pixels of the frame have alpha below 25. *)
Definition transparentCount (r : raster) : Z :=
  Z.of_nat (List.length (filter (transparentAt r) (pixels r))).

(** What the four extrema hold after the pixels [l] have been visited from
    the bounds [b]: each is a bound of the start value and of every
    transparent pixel of [l], and is the start value or attained in [l]. *)
Record extrema_of (r : raster) (l : list (Z * Z)) (b b' : bounds) : Prop := {
  minX_le_start : minX b' <= minX b;
  minY_le_start : minY b' <= minY b;
  maxX_ge_start : maxX b <= maxX b';
  maxY_ge_start : maxY b <= maxY b';
  minX_le : forall p, In p l -> transparentAt r p = true -> minX b' <= fst p;
  minY_le : forall p, In p l -> transparentAt r p = true -> minY b' <= snd p;
  maxX_ge : forall p, In p l -> transparentAt r p = true -> fst p <= maxX b';
  maxY_ge : forall p, In p l -> transparentAt r p = true -> snd p <= maxY b';
  minX_attained : minX b' = minX b \/
    exists p, In p l /\ transparentAt r p = true /\ minX b' = fst p;
  minY_attained : minY b' = minY b \/
    exists p, In p l /\ transparentAt r p = true /\ minY b' = snd p;
  maxX_attained : maxX b' = maxX b \/
    exists p, In p l /\ transparentAt r p = true /\ maxX b' = fst p;
  maxY_attained : maxY b' = maxY b \/
    exists p, In p l /\ transparentAt r p = true /\ maxY b' = snd p
}.

(** Membership in the rectangle [rc]. *)
Definition inside (rc : Placement.t) (x y : Z) : bool :=
  (Placement.left rc <=? x) && (x <? Placement.left rc + Placement.width rc)
  && (Placement.top rc <=? y) && (y <? Placement.top rc + Placement.height rc).

(** A four-channel frame of [w] by [h] pixels whose alpha is given by
    [alpha x y] and whose colour samples are 0. *)
Definition frameOfAlpha (w h : Z) (alpha : Z -> Z -> Z) : raster :=
  mkRaster w h 4
    (flat_map (fun y => flat_map (fun x => [0; 0; 0; alpha x y]) (range w)) (range h)).

(** ** The sharp pipeline of [applyFrame] and [saveImage] *)

(** A decoded image: its size and its pixels, each a list of samples. *)
Record image := mkImage {
  imageWidth : Z;
  imageHeight : Z;
  pixelAt : Z -> Z -> list Z
}.

(** The pixels of a raw buffer: [channels] samples from
    [(y * width + x) * channels] on. *)
Definition imageOfRaster (r : raster) : image :=
  mkImage (width r) (height r)
    (fun x y => firstn (Z.to_nat (channels r))
                  (skipn (Z.to_nat ((y * width r + x) * channels r)) (data r))).

(** The operations a pipeline performs, in the order in which it performs
    them. *)
Inductive operation :=
| OpResize (w h : Z)
| OpJpeg (quality : Z)
| OpPng
| OpComposite (top left : Z).

(** The encoders with a quality setting discard information. *)
Definition lossy (op : operation) : bool :=
  match op with
  | OpJpeg _ => true
  | _ => false
  end.

(** What sharp (libvips) computes and this repository does not define:
    - [resizeCover img w h] for [resize(w, h, {fit: 'cover', position: 'center'})];
    - [jpegCodec q img] for the image that decodes from [jpeg({quality: q})];
    - [blendOver o b] for an overlay pixel drawn over a base pixel. *)
Record Sharp := mkSharp {
  resizeCover : image -> Z -> Z -> image;
  jpegCodec : Z -> image -> image;
  blendOver : list Z -> list Z -> list Z
}.

(** sharp documents that [resize] with both dimensions and [fit: 'cover']
    yields exactly these dimensions, and an encoder keeps the dimensions. *)
Definition sharpContract (lib : Sharp) : Prop :=
  (forall img w h, imageWidth (resizeCover lib img w h) = w
                   /\ imageHeight (resizeCover lib img w h) = h)
  /\ (forall q img, imageWidth (jpegCodec lib q img) = imageWidth img
                    /\ imageHeight (jpegCodec lib q img) = imageHeight img).

(** A pipeline yields a value and the operations performed for it. *)
Definition pipeline (A : Type) : Type := (A * list operation)%type.

Definition done {A : Type} (a : A) : pipeline A := (a, []).

Definition andThen {A B : Type} (m : pipeline A) (f : A -> pipeline B) : pipeline B :=
  let (a, ops1) := m in
  let (b, ops2) := f a in
  (b, ops1 ++ ops2).

Notation "x <~ m ;; k" := (andThen m (fun x => k))
  (at level 61, m at next level, right associativity).

Section Pipeline.
Variable lib : Sharp.
(** [this.defaultQuality = config.imageQuality] *)
Variable defaultQuality : Z.

Definition resize (img : image) (w h : Z) : pipeline image :=
  (resizeCover lib img w h, [OpResize w h]).

Definition jpeg (quality : Z) (img : image) : pipeline image :=
  (jpegCodec lib quality img, [OpJpeg quality]).

(** PNG is lossless: the image decodes unchanged. *)
Definition png (img : image) : pipeline image := (img, [OpPng]).

(** [sharp(base).composite([{input, top, left}])]: the overlay is drawn
    over the base with its corner at [(left, top)]; sharp rejects an
    overlay larger than the base. *)
Definition composite (base overlay : image) (top left : Z) : pipeline (option image) :=
  (if (imageWidth overlay <=? imageWidth base)
      && (imageHeight overlay <=? imageHeight base)
   then Some (mkImage (imageWidth base) (imageHeight base)
                (fun x y =>
                   if (left <=? x) && (x <? left + imageWidth overlay)
                      && (top <=? y) && (y <? top + imageHeight overlay)
                   then blendOver lib (pixelAt overlay (x - left) (y - top))
                                      (pixelAt base x y)
                   else pixelAt base x y))
   else None,
   [OpComposite top left]).

(** [applyFrame]; [None] when sharp throws. *)
Definition applyFrame (photo : image) (frame : raster) : pipeline (option image) :=
  let placement := detectFramePlacement frame in
  resized <~ resize photo (Placement.width placement) (Placement.height placement) ;;
  resizedPhoto <~ jpeg defaultQuality resized ;;
  frameBuffer <~ png (imageOfRaster frame) ;;
  composite frameBuffer resizedPhoto (Placement.top placement) (Placement.left placement).

(** [quality || this.defaultQuality]: [null] and [0] are falsy. *)
Definition orDefault (quality : option Z) : Z :=
  match quality with
  | Some q => if q =? 0 then defaultQuality else q
  | None => defaultQuality
  end.

(** [saveImage] *)
Definition saveImage (photo : image) (quality : option Z) : pipeline image :=
  jpeg (orDefault quality) photo.

(** A compositing request (PhotoController.processPrintRequest):
    [processImage] applies the frame and [saveImage] encodes the result. *)
Definition processAndSave (photo : image) (frame : raster) (quality : option Z)
  : pipeline (option image) :=
  composed <~ applyFrame photo frame ;;
  match composed with
  | Some c => saved <~ saveImage c quality ;; done (Some saved)
  | None => done None
  end.

End Pipeline.

(** An instance of [Sharp] to run the pipeline with: nearest-neighbour
    resizing, a codec that rounds each sample down to an even value, and an
    opaque overlay. *)
Definition toySharp : Sharp :=
  mkSharp
    (fun img w h =>
       mkImage w h (fun x y => pixelAt img (x * imageWidth img / w) (y * imageHeight img / h)))
    (fun _ img =>
       mkImage (imageWidth img) (imageHeight img)
               (fun x y => map (fun v => 2 * (v / 2)) (pixelAt img x y)))
    (fun o _ => o).

End ImageProcessor.

(** * The Node runtime used by the cleanup *)

Module Node.

(** An entry of the uploads directory: its name and what [fs.stat] reports
    for it, [size] in bytes and [mtime.getTime()] in milliseconds.  The path
    [path.join(uploadsPath, name)] of an entry is determined by its name, and
    the operations below address an entry by its name. *)
Record file := mkFile {
  name : string;
  size : Z;
  mtime : Z
}.

(** The directory in [readdir] order. *)
Definition directory := list file.

(** An async function: it returns, throws, or awaits an operation of
    [fs.promises] and goes on with what the operation resolves with.  [Stat]
    resolves with [None] and [Unlink] with [false] when the promise is
    rejected. *)
Inductive io (A : Type) : Type :=
| Return (a : A)
| Throw
| Readdir (k : list string -> io A)
| Stat (nm : string) (k : option file -> io A)
| Unlink (nm : string) (k : bool -> io A).

Arguments Return {A} a.
Arguments Throw {A}.
Arguments Readdir {A} k.
Arguments Stat {A} nm k.
Arguments Unlink {A} nm k.

Fixpoint bind {A B : Type} (m : io A) (f : A -> io B) : io B :=
  match m with
  | Return a => f a
  | Throw => Throw
  | Readdir k => Readdir (fun names => bind (k names) f)
  | Stat nm k => Stat nm (fun st => bind (k st) f)
  | Unlink nm k => Unlink nm (fun ok => bind (k ok) f)
  end.

(** [try { m } catch (error) { handler }] *)
Fixpoint try_catch {A : Type} (m : io A) (handler : io A) : io A :=
  match m with
  | Return a => Return a
  | Throw => handler
  | Readdir k => Readdir (fun names => try_catch (k names) handler)
  | Stat nm k => Stat nm (fun st => try_catch (k st) handler)
  | Unlink nm k => Unlink nm (fun ok => try_catch (k ok) handler)
  end.

Notation "x <- m ;; k" := (bind m (fun x => k))
  (at level 61, m at next level, right associativity).

(** [await fs.readdir(dir)], [await fs.stat(path)], [await fs.unlink(path)] *)
Definition fs_readdir : io (list string) := Readdir Return.

Definition fs_stat (nm : string) : io file :=
  Stat nm (fun st => match st with Some f => Return f | None => Throw end).

Definition fs_unlink (nm : string) : io unit :=
  Unlink nm (fun ok => if ok then Return tt else Throw).

(** [await Promise.all(list.map(f))]: the operations of the elements, the
    results in the order of the list; rejected when one of them is. *)
Fixpoint Promise_all_map {A B : Type} (f : A -> io B) (l : list A) : io (list B) :=
  match l with
  | [] => Return []
  | x :: rest =>
      v <- f x ;;
      vs <- Promise_all_map f rest ;;
      Return (v :: vs)
  end.

(** A promise once settled: fulfilled with a value, or rejected. *)
Definition settle {A : Type} (m : io A) : io (option A) :=
  try_catch (a <- m ;; Return (Some a)) (Return None).

(** Two async functions started together.  Each runs up to its next await;
    the order in which the awaited operations complete is not decided by the
    program: [schedule] lists whose operation completes next, [true] for the
    first function and [false] for the second.  A turn given to a function
    that has settled passes; when the list is exhausted the first function
    runs to its end, then the second. *)
Fixpoint together {A B : Type} (schedule : list bool) (a : io A) (b : io B)
  : io (option A * option B) :=
  match schedule with
  | [] =>
      ra <- settle a ;;
      rb <- settle b ;;
      Return (ra, rb)
  | true :: rest =>
      match a with
      | Return _ | Throw => together rest a b
      | Readdir k => Readdir (fun names => together rest (k names) b)
      | Stat nm k => Stat nm (fun st => together rest (k st) b)
      | Unlink nm k => Unlink nm (fun ok => together rest (k ok) b)
      end
  | false :: rest =>
      match b with
      | Return _ | Throw => together rest a b
      | Readdir k => Readdir (fun names => together rest a (k names))
      | Stat nm k => Stat nm (fun st => together rest a (k st))
      | Unlink nm k => Unlink nm (fun ok => together rest a (k ok))
      end
  end.

(** [await Promise.all([a, b])] for two async functions already started:
    fulfilled with both results, rejected when one of them is. *)
Definition Promise_all2 {A B : Type} (schedule : list bool) (a : io A) (b : io B)
  : io (A * B) :=
  settled <- together schedule a b ;;
  match settled with
  | (Some ra, Some rb) => Return (ra, rb)
  | _ => Throw
  end.

(** A context that passes the [Stat] of the function it surrounds on. *)
Definition relays {A B : Type} (C : io A -> io B) : Prop :=
  forall nm k, C (Stat nm k) = Stat nm (fun st => C (k st)).

(** Completion in the order of issue: the two functions take turns. *)
Fixpoint inTurn (rounds : nat) : list bool :=
  match rounds with
  | O => []
  | S n => true :: false :: inTurn n
  end.

(** *** The file system *)

Definition lookup (nm : string) (d : directory) : option file :=
  find (fun f => String.eqb (name f) nm) d.

Definition remove (nm : string) (d : directory) : directory :=
  filter (fun f => negb (String.eqb (name f) nm)) d.

Section Run.
(** The entries whose [unlink] is refused (EPERM, EACCES). *)
Variable denied : string -> bool.

(** [unlink] fails on a refused entry and on a missing one (ENOENT). *)
Definition unlink (nm : string) (d : directory) : bool * directory :=
  match lookup nm d with
  | Some _ => if denied nm then (false, d) else (true, remove nm d)
  | None => (false, d)
  end.

(** The completion of the operation awaited by [p]. *)
Definition resume {A : Type} (p : io A) (d : directory) : io A * directory :=
  match p with
  | Return _ | Throw => (p, d)
  | Readdir k => (k (map name d), d)
  | Stat nm k => (k (lookup nm d), d)
  | Unlink nm k => let (ok, d') := unlink nm d in (k ok, d')
  end.

(** An async function run to its end: the directory it leaves and its
    result, [None] when it throws. *)
Fixpoint run {A : Type} (p : io A) (d : directory) : directory * option A :=
  match p with
  | Return a => (d, Some a)
  | Throw => (d, None)
  | Readdir k => run (k (map name d)) d
  | Stat nm k => run (k (lookup nm d)) d
  | Unlink nm k => let (ok, d') := unlink nm d in run (k ok) d'
  end.
End Run.

(** *** [path.extname] (posix) and [String.prototype.toLowerCase] *)

(** The locals of the loop of [extname]; [stopped] records the [break]. *)
Record extnameState := mkExtnameState {
  startDot : Z;
  startPart : Z;
  endIndex : Z;
  matchedSlash : bool;
  preDotState : Z;
  stopped : bool
}.

Definition extnameStep (path : string) (st : extnameState) (i : Z) : extnameState :=
  if stopped st then st
  else
    match String.get (Z.to_nat i) path with
    | None => st
    | Some code =>
        if Ascii.eqb code "/" then
          if negb (matchedSlash st)
          then mkExtnameState (startDot st) (i + 1) (endIndex st) (matchedSlash st)
                              (preDotState st) true
          else st
        else
          let st1 :=
            if endIndex st =? -1
            then mkExtnameState (startDot st) (startPart st) (i + 1) false
                                (preDotState st) false
            else st in
          if Ascii.eqb code "." then
            if startDot st1 =? -1
            then mkExtnameState i (startPart st1) (endIndex st1) (matchedSlash st1)
                                (preDotState st1) false
            else if negb (preDotState st1 =? 1)
            then mkExtnameState (startDot st1) (startPart st1) (endIndex st1)
                                (matchedSlash st1) 1 false
            else st1
          else if negb (startDot st1 =? -1)
          then mkExtnameState (startDot st1) (startPart st1) (endIndex st1)
                              (matchedSlash st1) (-1) false
          else st1
    end.

(** [for (let i = path.length - 1; i >= 0; --i)] *)
Definition extname (path : string) : string :=
  let st := fold_left (extnameStep path) (rev (range (Z.of_nat (String.length path))))
                      (mkExtnameState (-1) 0 (-1) true 0 false) in
  if (startDot st =? -1) || (endIndex st =? -1) || (preDotState st =? 0)
     || ((preDotState st =? 1) && (startDot st =? endIndex st - 1)
         && (startDot st =? startPart st + 1))
  then EmptyString
  else substring (Z.to_nat (startDot st)) (Z.to_nat (endIndex st - startDot st)) path.

(** Lower case of a character; the letters A to Z are the only characters
    whose lower case is a letter of an extension of the configuration. *)
Definition lowerChar (c : ascii) : ascii :=
  let n := nat_of_ascii c in
  if ((65 <=? n) && (n <=? 90))%nat then ascii_of_nat (n + 32) else c.

Fixpoint toLowerCase (s : string) : string :=
  match s with
  | EmptyString => EmptyString
  | String c rest => String (lowerChar c) (toLowerCase rest)
  end.

End Node.

(** * CleanupManager *)

Module CleanupManager.
Import Node.

(** The fields set by the constructor. *)
Record manager := mkManager {
  maxAge : Z;
  maxSize : Z;
  supportedExtensions : list string
}.

(** [constructor()] *)
Definition constructor : manager :=
  mkManager (24 * 60 * 60 * 1000) (100 * 1024 * 1024)
            [".jpg"%string; ".jpeg"%string; ".png"%string].

(** [setConfig(options)]: a field is replaced when the option is truthy. *)
Record options := mkOptions {
  optMaxAge : option Z;
  optMaxSize : option Z;
  optSupportedExtensions : option (list string)
}.

Definition truthy (v : option Z) : option Z :=
  match v with
  | Some n => if n =? 0 then None else Some n
  | None => None
  end.

Definition setConfig (this : manager) (o : options) : manager :=
  mkManager
    (match truthy (optMaxAge o) with Some v => v | None => maxAge this end)
    (match truthy (optMaxSize o) with Some v => v | None => maxSize this end)
    (match optSupportedExtensions o with Some v => v | None => supportedExtensions this end).

(** What both passes return. *)
Record result := mkResult {
  deletedCount : Z;
  totalSize : Z
}.

(** What [getUploadStats] returns; the formatted strings are left out and
    [oldestFileAge] is the age in milliseconds before formatting. *)
Record stats := mkStats {
  fileCount : Z;
  statsTotalSize : Z;
  oldestFile : option string;
  oldestFileAge : option Z
}.

(** What [runFullCleanup] returns. *)
Record fullResult := mkFullResult {
  ageCleanup : result;
  sizeCleanup : result;
  uploadStats : stats
}.

Section Methods.
Variable this : manager.
(** The reading of [Date.now()] during the run. *)
Variable now : Z.

(** [isImageFile(filename)] *)
Definition isImageFile (filename : string) : bool :=
  let ext := toLowerCase (extname filename) in
  existsb (String.eqb ext) (supportedExtensions this).

(** The callback of [map] in [getUploadFiles]:
    [async (file) => { const stats = await fs.stat(filePath);
                       return { name: file, size: stats.size, mtime: stats.mtime } }] *)
Definition statEntry (nm : string) : io file :=
  stats <- fs_stat nm ;;
  Return (mkFile nm (size stats) (mtime stats)).

(** [getUploadFiles()]: any rejection inside yields the empty list. *)
Definition getUploadFiles : io (list file) :=
  try_catch
    (files <- fs_readdir ;;
     Promise_all_map statEntry (filter isImageFile files))
    (Return []).

(** The loop of [cleanOldFiles] with its locals. *)
Fixpoint cleanOldFiles_loop (files : list file) (deletedCount totalSize : Z)
  : io result :=
  match files with
  | [] => Return (mkResult deletedCount totalSize)
  | file :: rest =>
      let fileAge := now - mtime file in
      if fileAge >? maxAge this then
        _ <- fs_unlink (name file) ;;
        cleanOldFiles_loop rest (deletedCount + 1) totalSize
      else
        cleanOldFiles_loop rest deletedCount (totalSize + size file)
  end.

(** [cleanOldFiles()]; the handler logs and throws the error again. *)
Definition cleanOldFiles : io result :=
  try_catch
    (files <- getUploadFiles ;;
     cleanOldFiles_loop files 0 0)
    Throw.

(** [files.sort((a, b) => a.mtime.getTime() - b.mtime.getTime())]: the sort
    of ECMAScript is stable, so is this insertion sort. *)
Fixpoint insertByMtime (f : file) (sorted : list file) : list file :=
  match sorted with
  | [] => [f]
  | g :: rest =>
      if mtime f - mtime g <=? 0 then f :: g :: rest
      else g :: insertByMtime f rest
  end.

Definition sortByMtime (files : list file) : list file :=
  fold_right insertByMtime [] files.

(** The second loop of [cleanBySize] with its locals. *)
Fixpoint cleanBySize_loop (files : list file) (deletedCount totalSize : Z)
  : io result :=
  match files with
  | [] => Return (mkResult deletedCount totalSize)
  | file :: rest =>
      if totalSize <=? maxSize this then Return (mkResult deletedCount totalSize)
      else
        _ <- fs_unlink (name file) ;;
        cleanBySize_loop rest (deletedCount + 1) (totalSize - size file)
  end.

(** [for (const file of files) totalSize += file.size] *)
Definition sumSizes (files : list file) : Z :=
  fold_left (fun total file => total + size file) files 0.

(** [cleanBySize()] *)
Definition cleanBySize : io result :=
  try_catch
    (files <- getUploadFiles ;;
     let totalSize := sumSizes files in
     if totalSize <=? maxSize this then Return (mkResult 0 totalSize)
     else cleanBySize_loop (sortByMtime files) 0 totalSize)
    Throw.

(** [files.reduce((oldest, file) => file.mtime < oldest.mtime ? file : oldest)] *)
Definition oldestOf (files : list file) : option file :=
  match files with
  | [] => None
  | first :: rest =>
      Some (fold_left (fun oldest file =>
                         if mtime file <? mtime oldest then file else oldest)
                      rest first)
  end.

(** [getUploadStats()] *)
Definition getUploadStats : io stats :=
  try_catch
    (files <- getUploadFiles ;;
     let oldest := oldestOf files in
     Return (mkStats (Z.of_nat (List.length files)) (sumSizes files)
                     (option_map name oldest)
                     (option_map (fun f => now - mtime f) oldest)))
    (Return (mkStats 0 0 None None)).

(** [runFullCleanup()]: both passes are started, then awaited together;
    [schedule] is the order in which their operations complete. *)
Definition runFullCleanup (schedule : list bool) : io fullResult :=
  try_catch
    (passes <- Promise_all2 schedule cleanOldFiles cleanBySize ;;
     let (ageResult, sizeResult) := passes in
     stats <- getUploadStats ;;
     Return (mkFullResult ageResult sizeResult stats))
    Throw.

End Methods.

(** *** Vocabulary of the statements *)

(** The files a pass works on: the image files of the directory. *)
Definition uploadFiles (this : manager) (d : directory) : list file :=
  filter (fun f => isImageFile this (name f)) d.

(** The files [cleanOldFiles] unlinks when no unlink fails. *)
Definition overAge (this : manager) (now : Z) (files : list file) : list file :=
  filter (fun f => now - mtime f >? maxAge this) files.

Definition withinAge (this : manager) (now : Z) (files : list file) : list file :=
  filter (fun f => negb (now - mtime f >? maxAge this)) files.

(** The files the second loop of [cleanBySize] unlinks when no unlink
    fails: those it meets while the total is above the limit. *)
Fixpoint overSize (this : manager) (files : list file) (totalSize : Z) : list file :=
  match files with
  | [] => []
  | file :: rest =>
      if totalSize <=? maxSize this then []
      else file :: overSize this rest (totalSize - size file)
  end.

(** The files [cleanBySize] unlinks when no unlink fails. *)
Definition sizeVictims (this : manager) (files : list file) : list file :=
  if sumSizes files <=? maxSize this then []
  else overSize this (sortByMtime files) (sumSizes files).

(** The files unlinked before the first refusal. *)
Fixpoint unlinkedOf (denied : string -> bool) (victims : list file) : list file :=
  match victims with
  | [] => []
  | f :: rest => if denied (name f) then [] else f :: unlinkedOf denied rest
  end.

(** The directory without the entries named in [gone]. *)
Definition without (gone : list file) (d : directory) : directory :=
  fold_left (fun d f => remove (name f) d) gone d.

Definition noneDenied (denied : string -> bool) (victims : list file) : bool :=
  forallb (fun f => negb (denied (name f))) victims.

(** A directory has no two entries of the same name. *)
Definition wellFormed (d : directory) : Prop := NoDup (map name d).

(** The order of the sort. *)
Definition olderOrEqual (f g : file) : Prop := mtime f <= mtime g.

(** Files of distinct names that are all in the directory. *)
Definition present (files : list file) (d : directory) : Prop :=
  NoDup (map name files) /\ forall f, In f files -> lookup (name f) d <> None.

End CleanupManager.

(** * PhotoBoothServer: the triggers of the cleanup *)

Module PhotoBoothServer.
Import Node CleanupManager.

(** An async call in flight: the callback of [setInterval] or a call of
    [runCleanup]. *)
Inductive task :=
| Scheduled (p : io unit)
| Requested (p : io fullResult).

(** The server: the uploads directory and the calls in flight.  The source
    keeps no other state about the cleanup: [cleanupInterval] is the handle
    of the timer. *)
Record server := mkServer {
  uploads : directory;
  inFlight : list task
}.

Inductive event :=
| TimerFires
| CleanupRequested
| Completes (i : nat).

Section Server.
Variable this : manager.
Variable now : Z.
Variable denied : string -> bool.
Variable schedule : list bool.

(** The callback of [startCleanupScheduler]:
    [try { await runFullCleanup() } catch (error) { console.error(...) }] *)
Definition scheduledCleanup : io unit :=
  try_catch (_ <- runFullCleanup this now schedule ;; Return tt) (Return tt).

(** [runCleanup()]:
    [try { return await runFullCleanup() } catch (error) { throw error }] *)
Definition runCleanup : io fullResult :=
  try_catch (runFullCleanup this now schedule) Throw.

Definition settled (t : task) : bool :=
  match t with
  | Scheduled (Return _) | Scheduled Throw => true
  | Requested (Return _) | Requested Throw => true
  | _ => false
  end.

Definition resumeTask (t : task) (d : directory) : task * directory :=
  match t with
  | Scheduled p => let (p', d') := resume denied p d in (Scheduled p', d')
  | Requested p => let (p', d') := resume denied p d in (Requested p', d')
  end.

(** The operation awaited by the [i]-th call in flight completes; a call
    that has settled leaves the list. *)
Fixpoint completes (i : nat) (tasks : list task) (d : directory)
  : list task * directory :=
  match tasks with
  | [] => ([], d)
  | t :: rest =>
      match i with
      | O => let (t', d') := resumeTask t d in
             (if settled t' then rest else t' :: rest, d')
      | S j => let (rest', d') := completes j rest d in (t :: rest', d')
      end
  end.

(** One turn of the event loop. *)
Definition handle (s : server) (e : event) : server :=
  match e with
  | TimerFires => mkServer (uploads s) (inFlight s ++ [Scheduled scheduledCleanup])
  | CleanupRequested => mkServer (uploads s) (inFlight s ++ [Requested runCleanup])
  | Completes i =>
      let (tasks, d) := completes i (inFlight s) (uploads s) in
      mkServer d tasks
  end.

Definition serve (s : server) (events : list event) : server :=
  fold_left handle events s.

(** The cleanup runs that have started and not settled. *)
Definition activeRuns (s : server) : nat :=
  List.length (filter (fun t => negb (settled t)) (inFlight s)).

(** The call has thrown. *)
Definition rejected (t : task) : bool :=
  match t with
  | Scheduled Throw | Requested Throw => true
  | _ => false
  end.

(** The call awaits [fs.unlink] of the entry [nm]. *)
Definition awaitsUnlink (nm : string) (t : task) : bool :=
  match t with
  | Scheduled (Unlink nm' _) | Requested (Unlink nm' _) => String.eqb nm nm'
  | _ => false
  end.

End Server.

End PhotoBoothServer.

(** * Directories and managers of the examples *)

Module Scenarios.
Import Node CleanupManager.
Local Open Scope string_scope.

(** Two over-age images around a recent one, read at time 100000000; the
    unlink of the first is refused. *)
Definition refusedDirectory : directory :=
  [mkFile "old.jpg" 10 0; mkFile "new.png" 5 99999999; mkFile "old2.jpg" 7 0].

Definition refuseOld (nm : string) : bool := String.eqb nm "old.jpg".

(** Five images of 10MB with the same [mtime] and a limit of 35MB. *)
Definition tenMB : Z := 10 * 1024 * 1024.

Definition fiveImages : directory :=
  [mkFile "a.jpg" tenMB 1000; mkFile "b.jpg" tenMB 1000; mkFile "c.jpg" tenMB 1000;
   mkFile "d.jpg" tenMB 1000; mkFile "e.jpg" tenMB 1000].

Definition limit35MB : manager :=
  setConfig constructor (mkOptions None (Some (35 * 1024 * 1024)) None).

(** An over-age image and a recent one, read at time 100000000. *)
Definition oldAndNew : directory :=
  [mkFile "old.jpg" 10 0; mkFile "new.png" 5 99999999].

Definition limit12 : manager :=
  setConfig constructor (mkOptions None (Some 12) None).

Definition nothingDenied (nm : string) : bool := false.

(** A file that is not an image among images. *)
Definition withNotes : directory :=
  [mkFile "old.jpg" 10 0; mkFile "notes.txt" 7 0; mkFile "new.PNG" 5 99999999].

(** A server with one over-age image and no cleanup in flight; the timer
    fires and a cleanup is requested; then the operations of the two runs
    complete in turn, four for each. *)
Definition idleServer : PhotoBoothServer.server :=
  PhotoBoothServer.mkServer [mkFile "old.jpg" 10 0] [].

Definition twoTriggers : list PhotoBoothServer.event :=
  [PhotoBoothServer.TimerFires; PhotoBoothServer.CleanupRequested].

Definition fourEach : list PhotoBoothServer.event :=
  List.concat (repeat [PhotoBoothServer.Completes 0%nat; PhotoBoothServer.Completes 1%nat] 4).

End Scenarios.

(** * Frames and photos of the examples *)

Module ImageScenarios.
Import ImageProcessor.

(** A 10x10 frame whose transparent pixels are the 4x3 rectangle at (3, 4). *)
Definition smallHole : Placement.t := Placement.mk 4 3 4 3.

Definition smallFrame : raster :=
  frameOfAlpha 10 10 (fun x y => if inside smallHole x y then 0 else 255).

(** A white photo of 2x2 pixels. *)
Definition whitePhoto : image := mkImage 2 2 (fun _ _ => [255; 255; 255]).

End ImageScenarios.

(** * Further calls of the server *)

Module ServerCalls.
Import Node CleanupManager.

Section Calls.
Variable this : manager.
Variable now : Z.
Variable schedule : list bool.

(** [runInitialCleanup()]:
  [try { const result = await runFullCleanup(); return result }
   catch (error) { console.error(...) }]; [None] for [undefined]. *)
Definition runInitialCleanup : io (option fullResult) :=
try_catch (result <- runFullCleanup this now schedule ;; Return (Some result))
          (Return None).

(** [getCleanupStats()]:
  [try { return await getUploadStats() } catch (error) { throw error }] *)
Definition getCleanupStats : io stats :=
try_catch (getUploadStats this now) Throw.

End Calls.

(** An async function that unlinks only entries whose name satisfies [P],
    whatever the operations it awaits resolve with, and returns only values
    that satisfy [Q]. *)
Inductive guarded {A : Type} (P : string -> bool) (Q : A -> Prop) : io A -> Prop :=
| guarded_Return (a : A) : Q a -> guarded P Q (Return a)
| guarded_Throw : guarded P Q Throw
| guarded_Readdir (k : list string -> io A) :
    (forall names, guarded P Q (k names)) -> guarded P Q (Readdir k)
| guarded_Stat (nm : string) (k : option file -> io A) :
    (forall st, guarded P Q (k st)) -> guarded P Q (Stat nm k)
| guarded_Unlink (nm : string) (k : bool -> io A) :
    P nm = true -> (forall ok, guarded P Q (k ok)) -> guarded P Q (Unlink nm k).

Definition anything {A : Type} (_ : A) : Prop := True.

Definition guardedTask (P : string -> bool) (t : PhotoBoothServer.task) : Prop :=
  match t with
  | PhotoBoothServer.Scheduled p => guarded P anything p
  | PhotoBoothServer.Requested p => guarded P anything p
  end.

End ServerCalls.

(** * File names of the photos *)

Module ImageNames.
Local Open Scope string_scope.

(** [String.prototype.slice(start, end)] *)
Definition slice (s : string) (start stop : Z) : string :=
  let len := Z.of_nat (String.length s) in
  let from := if (start <? 0)%Z then Z.max (len + start) 0 else Z.min start len in
  let to := if (stop <? 0)%Z then Z.max (len + stop) 0 else Z.min stop len in
  substring (Z.to_nat from) (Z.to_nat (Z.max (to - from) 0)) s.

(** [replace(/[:.]/g, '-')] *)
Fixpoint dashed (s : string) : string :=
  match s with
  | EmptyString => EmptyString
  | String c rest =>
      String (if Ascii.eqb c ":" || Ascii.eqb c "." then "-"%char else c) (dashed rest)
  end.

(** [generateTimestamp()]:
    [new Date().toISOString().replace(/[:.]/g, '-').slice(0, -5)], where
    [iso] is what [toISOString] returns. *)
Definition generateTimestamp (iso : string) : string :=
  slice (dashed iso) 0 (-5).

(** [generateFilename(prefix = 'photo', extension = 'jpg')]; [None] is an
    argument left out. *)
Definition generateFilename (prefix extension : option string) (iso : string) : string :=
  let prefix := match prefix with Some p => p | None => "photo" end in
  let extension := match extension with Some e => e | None => "jpg" end in
  let timestamp := generateTimestamp iso in
  prefix ++ "_" ++ timestamp ++ "." ++ extension.

(** What [toISOString] returns for the years 0 to 9999:
    [YYYY-MM-DDTHH:mm:ss.sssZ], given here by the part up to the seconds
    and the three digits of the milliseconds. *)
Definition isoString (upToSeconds milliseconds : string) : string :=
  upToSeconds ++ "." ++ milliseconds ++ "Z".

(** [s.includes(c)] for a character [c]. *)
Fixpoint occurs (c : ascii) (s : string) : bool :=
  match s with
  | EmptyString => false
  | String x rest => Ascii.eqb x c || occurs c rest
  end.

(** No character of [s] is [c]. *)
Definition lacks (c : ascii) (s : string) : Prop := occurs c s = false.

End ImageNames.

(** * The age of the oldest file in words *)

From Stdlib Require DecimalString.

Module DurationFormat.
Local Open Scope string_scope.

(** [`${n}`] for a number that holds an integer. *)
Definition show (n : Z) : string :=
  DecimalString.NilZero.string_of_int (Z.to_int n).

(** The integer part of [x], towards zero. *)
Definition truncate (x : Q) : Z :=
  if Qle_bool 0 x then Qfloor x else Qceiling x.

(** [x % m]: the remainder has the sign of [x]. *)
Definition remainder (x m : Q) : Q :=
  (x - m * inject_Z (truncate (x / m)))%Q.

(** [formatDuration(seconds)].  [getUploadStats] calls it with
    [(Date.now() - oldestFile.mtime.getTime()) / 1000]; the seconds are an
    exact rational here, as the percentage is in [ImageProcessor]. *)
Definition formatDuration (seconds : Q) : string :=
  let hours := Qfloor (seconds / 3600) in
  let minutes := Qfloor (remainder seconds 3600 / 60) in
  let secs := Qfloor (remainder seconds 60) in
  if (hours >? 0)%Z then show hours ++ "h " ++ show minutes ++ "m " ++ show secs ++ "s"
  else if (minutes >? 0)%Z then show minutes ++ "m " ++ show secs ++ "s"
  else show secs ++ "s".

End DurationFormat.

(** * Properties of the frame scan *)

Module ImageProcessorFacts.
Import ImageProcessor.

Lemma range_succ (k : nat) :
  range (Z.of_nat (S k)) = range (Z.of_nat k) ++ [Z.of_nat k].
Proof.
  unfold range. rewrite !Nat2Z.id, seq_S, map_app. reflexivity.
Qed.

Lemma in_range (n x : Z) : In x (range n) <-> 0 <= x < n.
Proof.
  unfold range. rewrite in_map_iff. split.
  - intros [k [<- Hk]]. apply in_seq in Hk. lia.
  - intros Hx. exists (Z.to_nat x). split; [lia|]. apply in_seq. lia.
Qed.

Lemma in_pixels (r : raster) (x y : Z) :
  In (x, y) (pixels r) <-> 0 <= x < width r /\ 0 <= y < height r.
Proof.
  unfold pixels. rewrite in_flat_map. split.
  - intros [y' [Hy Hin]]. apply in_map_iff in Hin.
    destruct Hin as [x' [Heq Hx]]. inversion Heq; subst.
    apply in_range in Hy. apply in_range in Hx. lia.
  - intros [Hx Hy]. exists y. split; [now apply in_range|].
    apply in_map_iff. exists x. split; [reflexivity | now apply in_range].
Qed.

Lemma scanFrame_pixels (r : raster) :
  scanFrame r = fold_left (visitPixel r) (pixels r) (initialBounds r).
Proof.
  unfold scanFrame, pixels.
  generalize (initialBounds r). generalize (range (height r)).
  induction l as [|y ys IH]; intros b; simpl; [reflexivity|].
  rewrite fold_left_app, IH. f_equal.
  unfold scanRow. generalize (range (width r)). clear.
  intros xs. revert b. induction xs as [|x xs IH]; intros b; simpl; auto.
Qed.

Section ScanInvariants.
Variable r : raster.

Lemma scan_count (l : list (Z * Z)) (b : bounds) :
  transparentPixels (fold_left (visitPixel r) l b)
  = transparentPixels b + Z.of_nat (List.length (filter (transparentAt r) l)).
Proof.
  revert b. induction l as [|p l IH]; intros b; simpl; [lia|].
  rewrite IH. unfold visitPixel, visit, transparentAt.
  destruct (isTransparent r (fst p) (snd p)); simpl; lia.
Qed.

Lemma scan_has (l : list (Z * Z)) (b : bounds) :
  hasTransparentArea (fold_left (visitPixel r) l b)
  = hasTransparentArea b || existsb (transparentAt r) l.
Proof.
  revert b. induction l as [|p l IH]; intros b; simpl.
  - now rewrite orb_false_r.
  - rewrite IH. unfold visitPixel, visit, transparentAt.
    destruct (isTransparent r (fst p) (snd p)); simpl; auto.
    now rewrite orb_true_r.
Qed.

Lemma scan_extrema (l : list (Z * Z)) (b : bounds) :
  extrema_of r l b (fold_left (visitPixel r) l b).
Proof.
  revert b. induction l as [|p l IH]; intros b; simpl.
  - constructor; try lia; auto; intros ? [].
  - specialize (IH (visitPixel r b p)).
    set (b' := fold_left (visitPixel r) l (visitPixel r b p)) in *.
    clearbody b'.
    destruct IH as [a1 a2 a3 a4 a5 a6 a7 a8 a9 a10 a11 a12].
    assert (Hstep : (transparentAt r p = true /\
                     visitPixel r b p =
                     mkBounds (Z.min (minX b) (fst p)) (Z.min (minY b) (snd p))
                              (Z.max (maxX b) (fst p)) (Z.max (maxY b) (snd p))
                              true (transparentPixels b + 1))
                    \/ (transparentAt r p = false /\ visitPixel r b p = b)).
    { unfold visitPixel, visit, transparentAt.
      destruct (isTransparent r (fst p) (snd p)); auto. }
    destruct Hstep as [[Ht Hv] | [Ht Hv]]; rewrite Hv in *; simpl in *.
    + constructor; try lia.
      * intros q [<- | Hq] Hq'; [lia | now apply a5].
      * intros q [<- | Hq] Hq'; [lia | now apply a6].
      * intros q [<- | Hq] Hq'; [lia | now apply a7].
      * intros q [<- | Hq] Hq'; [lia | now apply a8].
      * destruct a9 as [E | [q [Hq [Hq' E]]]].
        -- destruct (Z.min_spec (minX b) (fst p)) as [[_ M] | [_ M]];
             rewrite M in E; [now left | right; exists p; repeat split; simpl; auto].
        -- right; exists q; repeat split; simpl; auto.
      * destruct a10 as [E | [q [Hq [Hq' E]]]].
        -- destruct (Z.min_spec (minY b) (snd p)) as [[_ M] | [_ M]];
             rewrite M in E; [now left | right; exists p; repeat split; simpl; auto].
        -- right; exists q; repeat split; simpl; auto.
      * destruct a11 as [E | [q [Hq [Hq' E]]]].
        -- destruct (Z.max_spec (maxX b) (fst p)) as [[_ M] | [_ M]];
             rewrite M in E; [right; exists p; repeat split; simpl; auto | now left].
        -- right; exists q; repeat split; simpl; auto.
      * destruct a12 as [E | [q [Hq [Hq' E]]]].
        -- destruct (Z.max_spec (maxY b) (snd p)) as [[_ M] | [_ M]];
             rewrite M in E; [right; exists p; repeat split; simpl; auto | now left].
        -- right; exists q; repeat split; simpl; auto.
    + constructor; try lia.
      * intros q [<- | Hq] Hq'; [congruence | now apply a5].
      * intros q [<- | Hq] Hq'; [congruence | now apply a6].
      * intros q [<- | Hq] Hq'; [congruence | now apply a7].
      * intros q [<- | Hq] Hq'; [congruence | now apply a8].
      * destruct a9 as [E | [q [Hq [Hq' E]]]]; [now left | right; exists q; repeat split; simpl; auto].
      * destruct a10 as [E | [q [Hq [Hq' E]]]]; [now left | right; exists q; repeat split; simpl; auto].
      * destruct a11 as [E | [q [Hq [Hq' E]]]]; [now left | right; exists q; repeat split; simpl; auto].
      * destruct a12 as [E | [q [Hq [Hq' E]]]]; [now left | right; exists q; repeat split; simpl; auto].
Qed.

End ScanInvariants.

(** ** The two rational computations *)

Lemma floorFifth_div (n : Z) : floorFifth n = n / 5.
Proof.
  unfold floorFifth, Qfloor, Qmult, inject_Z. simpl.
  change (Z.pos 10) with (5 * 2). now rewrite Z.div_mul_cancel_r.
Qed.

Lemma belowFivePercent_spec (c t : Z) :
  0 < t ->
  belowFivePercent (transparentPercentage c t) = (100 * c <? 5 * t).
Proof.
  intros Ht. unfold transparentPercentage.
  destruct (Z.eqb_spec t 0) as [->|_]; [lia|].
  destruct t as [|q|q]; try lia.
  cbv [belowFivePercent Qcompare Qdiv Qinv Qmult inject_Z Qnum Qden].
  rewrite Pos.mul_1_l, Pos.mul_1_r.
  destruct (Z.compare_spec (c * 1 * 100 * 1) (5 * Z.pos q)) as [E|E|E];
    destruct (Z.ltb_spec (100 * c) (5 * Z.pos q)); try reflexivity; lia.
Qed.

(** ** Agreement with binary64 *)

(** On every frame dimension below 4096 binary64 computes the same fifth. *)
Lemma floorFifth_binary64 (n : Z) :
  0 <= n < 4096 -> Binary64.floorFifth n = Some (floorFifth n).
Proof.
  intros Hn.
  assert (Hall : forallb (fun a => forallb (fun b =>
                   match Binary64.floorFifth (64 * a + b) with
                   | Some v => v =? (64 * a + b) / 5
                   | None => false
                   end) (range 64)) (range 64) = true)
    by (vm_compute; reflexivity).
  rewrite forallb_forall in Hall.
  specialize (Hall (n / 64) (proj2 (in_range 64 (n / 64))
                                   ltac:(split; [apply Z.div_pos | apply Z.div_lt_upper_bound]; lia))).
  rewrite forallb_forall in Hall.
  specialize (Hall (n mod 64) (proj2 (in_range 64 (n mod 64))
                                     ltac:(apply Z.mod_pos_bound; lia))).
  rewrite <- (Z.div_mod n 64) in Hall by lia.
  rewrite floorFifth_div. destruct (Binary64.floorFifth n) as [v|]; [|discriminate].
  apply Z.eqb_eq in Hall. now subst v.
Qed.

(** On every frame of up to 40 pixels binary64 decides the 5% test as the
    exact computation does. *)
Lemma belowFivePercent_binary64 (c t : Z) :
  0 <= c <= t -> 0 < t <= 40 ->
  Binary64.belowFivePercent c t = belowFivePercent (transparentPercentage c t).
Proof.
  intros Hc Ht.
  assert (Hall : forallb (fun t' => forallb (fun c' =>
                   Bool.eqb (Binary64.belowFivePercent c' (t' + 1))
                            (100 * c' <? 5 * (t' + 1))) (range (t' + 2)))
                   (range 40) = true)
    by (vm_compute; reflexivity).
  rewrite forallb_forall in Hall.
  specialize (Hall (t - 1) (proj2 (in_range 40 (t - 1)) ltac:(lia))).
  rewrite forallb_forall in Hall.
  specialize (Hall c (proj2 (in_range (t - 1 + 2) c) ltac:(lia))).
  replace (t - 1 + 1) with t in Hall by lia.
  rewrite belowFivePercent_spec by lia. now apply Bool.eqb_prop.
Qed.

(** The frames of the examples below. *)
Lemma belowFivePercent_binary64_examples :
  forallb (fun ct => Bool.eqb (Binary64.belowFivePercent (fst ct) (snd ct))
                              (belowFivePercent (transparentPercentage (fst ct) (snd ct))))
          [(120000, 1000000); (10, 100); (12, 100); (1, 100); (5, 100); (49999, 1000000)]
  = true.
Proof. vm_compute. reflexivity. Qed.

(** ** Counting the pixels of a rectangle *)

Lemma count_interval (a n : Z) (k : nat) :
  0 <= a -> 0 <= n ->
  Z.of_nat (List.length (filter (fun x => (a <=? x) && (x <? a + n)) (range (Z.of_nat k))))
  = Z.max 0 (Z.min (Z.of_nat k) (a + n) - a).
Proof.
  intros Ha Hn. induction k as [|k IH].
  - simpl. lia.
  - rewrite range_succ, filter_app, length_app, Nat2Z.inj_add, IH. simpl.
    destruct (Z.leb_spec a (Z.of_nat k)); destruct (Z.ltb_spec (Z.of_nat k) (a + n));
      simpl; lia.
Qed.

Lemma count_interval_range (a n w : Z) :
  0 <= a -> 0 <= n -> a + n <= w ->
  Z.of_nat (List.length (filter (fun x => (a <=? x) && (x <? a + n)) (range w))) = n.
Proof.
  intros Ha Hn Hw. rewrite <- (Z2Nat.id w) by lia.
  rewrite count_interval by lia. lia.
Qed.

Lemma count_row (rc : Placement.t) (w y : Z) :
  0 <= Placement.left rc -> 0 <= Placement.width rc ->
  Placement.left rc + Placement.width rc <= w ->
  Z.of_nat (List.length (filter (fun p => inside rc (fst p) (snd p))
                                (map (fun x => (x, y)) (range w))))
  = if (Placement.top rc <=? y) && (y <? Placement.top rc + Placement.height rc)
    then Placement.width rc else 0.
Proof.
  intros Hl Hw Hfit. rewrite filter_map_swap, length_map. unfold inside. simpl.
  destruct ((Placement.top rc <=? y) && (y <? Placement.top rc + Placement.height rc)) eqn:Hy.
  - etransitivity;
      [| apply (count_interval_range (Placement.left rc) (Placement.width rc) w); lia].
    do 2 f_equal. apply filter_ext. intros x.
    rewrite <- andb_assoc, Hy. now rewrite andb_true_r.
  - replace (filter _ (range w)) with (@nil Z); [reflexivity|].
    symmetry. induction (range w) as [|x xs IH]; simpl; [reflexivity|].
    now rewrite <- andb_assoc, Hy, andb_false_r.
Qed.

Lemma count_rectangle (r : raster) (rc : Placement.t) :
  0 <= Placement.left rc -> 0 <= Placement.top rc ->
  0 <= Placement.width rc -> 0 <= Placement.height rc ->
  Placement.left rc + Placement.width rc <= width r ->
  Placement.top rc + Placement.height rc <= height r ->
  Z.of_nat (List.length (filter (fun p => inside rc (fst p) (snd p)) (pixels r)))
  = Placement.width rc * Placement.height rc.
Proof.
  intros Hl Ht Hw Hh Hfw Hfh. unfold pixels.
  assert (G : forall k : nat,
    Z.of_nat (List.length (filter (fun p => inside rc (fst p) (snd p))
      (flat_map (fun y => map (fun x => (x, y)) (range (width r))) (range (Z.of_nat k)))))
    = Placement.width rc
      * Z.max 0 (Z.min (Z.of_nat k) (Placement.top rc + Placement.height rc)
                 - Placement.top rc)).
  { induction k as [|k IH].
    - simpl. lia.
    - rewrite range_succ, flat_map_app, filter_app, length_app, Nat2Z.inj_add, IH.
      simpl flat_map. rewrite app_nil_r, count_row by lia.
      destruct (Z.leb_spec (Placement.top rc) (Z.of_nat k));
        destruct (Z.ltb_spec (Z.of_nat k) (Placement.top rc + Placement.height rc));
        simpl; nia. }
  rewrite <- (Z2Nat.id (height r)) by lia. rewrite G. nia.
Qed.

(** ** What the scan has found when it ends *)

Lemma scanFrame_count (r : raster) :
  transparentPixels (scanFrame r) = transparentCount r.
Proof.
  rewrite scanFrame_pixels, scan_count. reflexivity.
Qed.

Lemma transparentCount_nonneg (r : raster) : 0 <= transparentCount r.
Proof. unfold transparentCount. lia. Qed.

Lemma scanFrame_has (r : raster) :
  hasTransparentArea (scanFrame r) = true <->
  exists x y, 0 <= x < width r /\ 0 <= y < height r /\ isTransparent r x y = true.
Proof.
  rewrite scanFrame_pixels, scan_has. simpl. rewrite existsb_exists. split.
  - intros [[x y] [Hin Ht]]. apply in_pixels in Hin. exists x, y. tauto.
  - intros [x [y [Hx [Hy Ht]]]]. exists (x, y). split; [apply in_pixels; tauto | exact Ht].
Qed.

Lemma scanFrame_has_false (r : raster) :
  (forall x y, 0 <= x < width r -> 0 <= y < height r -> isTransparent r x y = false) ->
  hasTransparentArea (scanFrame r) = false.
Proof.
  intros H. destruct (hasTransparentArea (scanFrame r)) eqn:E; [|reflexivity].
  apply scanFrame_has in E. destruct E as [x [y [Hx [Hy Ht]]]].
  rewrite H in Ht by assumption. discriminate.
Qed.

(** When a transparent pixel exists, the box is the bounding box of the
    transparent pixels and lies inside the frame. *)
Lemma scanFrame_box (r : raster) :
  hasTransparentArea (scanFrame r) = true ->
  let b := scanFrame r in
  0 <= minX b <= maxX b /\ maxX b < width r /\
  0 <= minY b <= maxY b /\ maxY b < height r /\
  (forall x y, 0 <= x < width r -> 0 <= y < height r -> isTransparent r x y = true ->
     minX b <= x <= maxX b /\ minY b <= y <= maxY b) /\
  (exists y, 0 <= y < height r /\ isTransparent r (minX b) y = true) /\
  (exists y, 0 <= y < height r /\ isTransparent r (maxX b) y = true) /\
  (exists x, 0 <= x < width r /\ isTransparent r x (minY b) = true) /\
  (exists x, 0 <= x < width r /\ isTransparent r x (maxY b) = true).
Proof.
  intros Hhas. apply scanFrame_has in Hhas.
  destruct Hhas as [x0 [y0 [Hx0 [Hy0 Ht0]]]].
  cbv zeta. rewrite scanFrame_pixels.
  destruct (scan_extrema r (pixels r) (initialBounds r))
    as [a1 a2 a3 a4 a5 a6 a7 a8 a9 a10 a11 a12].
  set (b := fold_left (visitPixel r) (pixels r) (initialBounds r)) in *.
  clearbody b. simpl in *.
  assert (In0 : In (x0, y0) (pixels r)) by (apply in_pixels; tauto).
  pose proof (a5 _ In0 Ht0) as b5. pose proof (a6 _ In0 Ht0) as b6.
  pose proof (a7 _ In0 Ht0) as b7. pose proof (a8 _ In0 Ht0) as b8.
  simpl in *.
  assert (A9 : exists p, In p (pixels r) /\ transparentAt r p = true /\ minX b = fst p)
    by (destruct a9 as [E|E]; [lia | exact E]).
  assert (A10 : exists p, In p (pixels r) /\ transparentAt r p = true /\ minY b = snd p)
    by (destruct a10 as [E|E]; [lia | exact E]).
  assert (A11 : exists p, In p (pixels r) /\ transparentAt r p = true /\ maxX b = fst p)
    by (destruct a11 as [E|E]; [exists (x0, y0); simpl; repeat split; auto; lia | exact E]).
  assert (A12 : exists p, In p (pixels r) /\ transparentAt r p = true /\ maxY b = snd p)
    by (destruct a12 as [E|E]; [exists (x0, y0); simpl; repeat split; auto; lia | exact E]).
  destruct A9 as [[x9 y9] [I9 [T9 E9]]]. destruct A10 as [[x10 y10] [I10 [T10 E10]]].
  destruct A11 as [[x11 y11] [I11 [T11 E11]]]. destruct A12 as [[x12 y12] [I12 [T12 E12]]].
  apply in_pixels in I9, I10, I11, I12. unfold transparentAt in *. simpl in *.
  repeat split; try lia.
  - apply (a5 (x, y)); [apply in_pixels; tauto | assumption].
  - apply (a7 (x, y)); [apply in_pixels; tauto | assumption].
  - apply (a6 (x, y)); [apply in_pixels; tauto | assumption].
  - apply (a8 (x, y)); [apply in_pixels; tauto | assumption].
  - exists y9. subst. tauto.
  - exists y11. rewrite E11. tauto.
  - exists x10. rewrite E10. tauto.
  - exists x12. rewrite E12. tauto.
Qed.

(** ** Frames built from an alpha mask *)

Lemma nth_error_chunks {A : Type} (f : Z -> list A) (k : nat) :
  (forall i, List.length (f i) = k) ->
  forall (n s i j : nat), (i < n)%nat -> (j < k)%nat ->
  nth_error (flat_map f (map Z.of_nat (seq s n))) (i * k + j)
  = nth_error (f (Z.of_nat (s + i))) j.
Proof.
  intros Hlen. induction n as [|n IH]; intros s i j Hi Hj; [lia|].
  simpl. destruct i as [|i].
  - simpl. rewrite nth_error_app1 by (rewrite Hlen; lia).
    now rewrite Nat.add_0_r.
  - rewrite nth_error_app2 by (rewrite Hlen; lia).
    rewrite Hlen. replace (S i * k + j - k)%nat with (i * k + j)%nat by lia.
    rewrite IH by lia. do 2 f_equal. lia.
Qed.

Lemma length_chunks {A : Type} (f : Z -> list A) (k : nat) (l : list Z) :
  (forall i, List.length (f i) = k) ->
  List.length (flat_map f l) = (List.length l * k)%nat.
Proof.
  intros Hlen. induction l as [|x l IH]; simpl; [reflexivity|].
  now rewrite length_app, Hlen, IH.
Qed.

Lemma alphaAt_frameOfAlpha (w h : Z) (alpha : Z -> Z -> Z) (x y : Z) :
  0 <= x < w -> 0 <= y < h ->
  alphaAt (frameOfAlpha w h alpha) x y = Some (alpha x y).
Proof.
  intros Hx Hy. unfold alphaAt, frameOfAlpha, buffer_get. simpl.
  destruct (Z.ltb_spec ((y * w + x) * 4 + 3) 0) as [Hneg|_]; [nia|].
  replace (Z.to_nat ((y * w + x) * 4 + 3))
    with (Z.to_nat y * (Z.to_nat w * 4) + (Z.to_nat x * 4 + 3))%nat by nia.
  unfold range.
  rewrite (nth_error_chunks
             (fun y => flat_map (fun x => [0; 0; 0; alpha x y])
                                (map Z.of_nat (seq 0 (Z.to_nat w))))
             (Z.to_nat w * 4)) by
    (try lia; intros i; rewrite (length_chunks _ 4) by reflexivity;
     now rewrite length_map, length_seq).
  rewrite (nth_error_chunks (fun x => [0; 0; 0; alpha x (Z.of_nat (0 + Z.to_nat y))]) 4)
    by (try lia; reflexivity).
  simpl. rewrite !Z2Nat.id by lia. reflexivity.
Qed.

Lemma isTransparent_frameOfAlpha (w h : Z) (alpha : Z -> Z -> Z) (x y : Z) :
  0 <= x < w -> 0 <= y < h ->
  isTransparent (frameOfAlpha w h alpha) x y = (alpha x y <? 25).
Proof.
  intros Hx Hy. unfold isTransparent. now rewrite alphaAt_frameOfAlpha.
Qed.

(** The frame whose transparent pixels are those of the rectangle [rc]. *)
Lemma isTransparent_frameWithHole (w h : Z) (rc : Placement.t) (x y : Z) :
  0 <= x < w -> 0 <= y < h ->
  isTransparent (frameOfAlpha w h (fun x y => if inside rc x y then 0 else 255)) x y
  = inside rc x y.
Proof.
  intros Hx Hy. rewrite isTransparent_frameOfAlpha by assumption.
  now destruct (inside rc x y).
Qed.

(** ** detectFramePlacement *)

(** The placement lies inside the frame and is not empty. *)
Lemma detectFramePlacement_within_frame (r : raster) :
  0 < width r -> 0 < height r ->
  let p := detectFramePlacement r in
  0 <= Placement.left p /\ 0 <= Placement.top p /\
  0 < Placement.width p /\ 0 < Placement.height p /\
  Placement.left p + Placement.width p <= width r /\
  Placement.top p + Placement.height p <= height r.
Proof.
  intros Hw Hh. cbv zeta. unfold detectFramePlacement.
  destruct (hasTransparentArea (scanFrame r)) eqn:Hhas; simpl; [|lia].
  destruct (belowFivePercent _); simpl; [lia|].
  destruct (scanFrame_box r Hhas) as [B1 [B2 [B3 [B4 _]]]].
  lia.
Qed.

(** C1: when the pixels with alpha below 25 are exactly those of a rectangle
    [rc] lying in the frame, covering at least 5% of the pixels and at least
    20% of the frame in each dimension, [detectFramePlacement] returns [rc]. *)
Theorem detectFramePlacement_exact_rectangle (r : raster) (rc : Placement.t) :
  0 <= Placement.left rc -> 0 <= Placement.top rc ->
  0 < Placement.width rc -> 0 < Placement.height rc ->
  Placement.left rc + Placement.width rc <= width r ->
  Placement.top rc + Placement.height rc <= height r ->
  (forall x y, 0 <= x < width r -> 0 <= y < height r ->
     isTransparent r x y = inside rc x y) ->
  5 * (width r * height r) <= 100 * (Placement.width rc * Placement.height rc) ->
  width r <= 5 * Placement.width rc ->
  height r <= 5 * Placement.height rc ->
  detectFramePlacement r = rc.
Proof.
  intros Hl Ht Hw Hh Hfw Hfh Hmask Hcover Hminw Hminh.
  assert (Hin : forall x y, 0 <= x < width r -> 0 <= y < height r ->
            (isTransparent r x y = true <->
             Placement.left rc <= x < Placement.left rc + Placement.width rc /\
             Placement.top rc <= y < Placement.top rc + Placement.height rc)).
  { intros x y Hx Hy. rewrite Hmask by assumption. unfold inside.
    rewrite !andb_true_iff, !Z.leb_le, !Z.ltb_lt. tauto. }
  assert (Hcount : transparentPixels (scanFrame r)
                   = Placement.width rc * Placement.height rc).
  { rewrite scanFrame_count. unfold transparentCount.
    rewrite <- (count_rectangle r rc) by lia. do 2 f_equal.
    apply filter_ext_in. intros [x y] Hp. apply in_pixels in Hp. simpl.
    apply Hmask; tauto. }
  assert (Hhas : hasTransparentArea (scanFrame r) = true).
  { apply scanFrame_has. exists (Placement.left rc), (Placement.top rc).
    repeat split; try lia. apply Hin; lia. }
  destruct (scanFrame_box r Hhas) as [B1 [B2 [B3 [B4 [Ball [[y1 [Hy1 T1]]
    [[y2 [Hy2 T2]] [[x3 [Hx3 T3]] [x4 [Hx4 T4]]]]]]]]]].
  apply Hin in T1, T2, T3, T4; try lia.
  assert (Hc1 := proj2 (Hin (Placement.left rc) (Placement.top rc)
                          ltac:(lia) ltac:(lia)) ltac:(lia)).
  assert (Hc2 := proj2 (Hin (Placement.left rc + Placement.width rc - 1)
                          (Placement.top rc + Placement.height rc - 1)
                          ltac:(lia) ltac:(lia)) ltac:(lia)).
  apply Ball in Hc1, Hc2; try lia.
  unfold detectFramePlacement. rewrite Hhas, Hcount. simpl negb.
  rewrite belowFivePercent_spec by nia.
  destruct (Z.ltb_spec (100 * (Placement.width rc * Placement.height rc))
                       (5 * (width r * height r))) as [Hlt|_]; [lia|].
  simpl orb. cbv iota zeta. rewrite !floorFifth_div.
  assert (width r / 5 <= Placement.width rc) by (apply Z.div_le_upper_bound; lia).
  assert (height r / 5 <= Placement.height rc) by (apply Z.div_le_upper_bound; lia).
  destruct rc as [t l w h]. simpl in *. f_equal; lia.
Qed.

(** C8: a frame without alpha channel, or without a pixel of alpha below 25,
    or whose pixels of alpha below 25 are fewer than 5% of its pixels, gets
    the entire frame as placement. *)
Theorem detectFramePlacement_fallback (r : raster) :
  channels r <> 4
  \/ (forall x y, 0 <= x < width r -> 0 <= y < height r -> isTransparent r x y = false)
  \/ 100 * transparentCount r < 5 * (width r * height r) ->
  detectFramePlacement r = Placement.mk 0 0 (width r) (height r).
Proof.
  intros H. unfold detectFramePlacement. fold (entireFrame r).
  destruct H as [Hch | [Hnone | Hfew]].
  - rewrite scanFrame_has_false; [reflexivity|].
    intros x y _ _. unfold isTransparent, alphaAt.
    destruct (Z.eqb_spec (channels r) 4); [contradiction | reflexivity].
  - now rewrite scanFrame_has_false.
  - rewrite scanFrame_count.
    pose proof (transparentCount_nonneg r).
    rewrite belowFivePercent_spec by lia.
    destruct (Z.ltb_spec (100 * transparentCount r) (5 * (width r * height r)));
      [|lia].
    now rewrite orb_true_r.
Qed.

(** C4, as the code has it: each dimension of the placement is at least
    a fifth of the frame dimension, rounded down, unless the placement ends
    at the right (bottom) edge of the frame. *)
Theorem detectFramePlacement_minimum_size (r : raster) :
  let p := detectFramePlacement r in
  (floorFifth (width r) <= Placement.width p
   \/ Placement.left p + Placement.width p = width r)
  /\ (floorFifth (height r) <= Placement.height p
      \/ Placement.top p + Placement.height p = height r).
Proof.
  cbv zeta. unfold detectFramePlacement.
  destruct (negb (hasTransparentArea (scanFrame r)) || belowFivePercent _); simpl.
  - split; right; lia.
  - split.
    + destruct (Z.min_spec (Z.max (maxX (scanFrame r) - minX (scanFrame r) + 1)
                                  (floorFifth (width r)))
                           (width r - minX (scanFrame r))) as [[_ E] | [_ E]];
        rewrite E; [left; lia | right; lia].
    + destruct (Z.min_spec (Z.max (maxY (scanFrame r) - minY (scanFrame r) + 1)
                                  (floorFifth (height r)))
                           (height r - minY (scanFrame r))) as [[_ E] | [_ E]];
        rewrite E; [left; lia | right; lia].
Qed.

(** C4 as stated fails: in a 10x10 frame whose last column is transparent
    the placement is one pixel wide, below floor(0.2 * 10) = 2. *)
Lemma detectFramePlacement_minimum_size_fails :
  let r := frameOfAlpha 10 10 (fun x _ => if x =? 9 then 0 else 255) in
  detectFramePlacement r = Placement.mk 0 9 1 10
  /\ ~ (floorFifth (width r) <= Placement.width (detectFramePlacement r)).
Proof.
  cbv zeta. split; [vm_compute; reflexivity|].
  vm_compute. intros H. apply H. reflexivity.
Qed.

(** The scenario of C1: a 1000x1000 frame with a 400x300 hole at (300, 350). *)
Lemma detectFramePlacement_exact_rectangle_scenario :
  let rc := Placement.mk 350 300 400 300 in
  detectFramePlacement
    (frameOfAlpha 1000 1000 (fun x y => if inside rc x y then 0 else 255)) = rc.
Proof.
  intros rc.
  apply (detectFramePlacement_exact_rectangle
           (frameOfAlpha 1000 1000 (fun x y => if inside rc x y then 0 else 255)) rc);
    try (simpl; lia).
  intros x y Hx Hy. apply isTransparent_frameWithHole; assumption.
Defined.

(** A frame of C8: 10x10 with a single transparent pixel (1% of the frame). *)
Lemma detectFramePlacement_fallback_small_hole :
  detectFramePlacement (frameOfAlpha 10 10 (fun x y => if (x =? 3) && (y =? 4) then 0 else 255))
  = Placement.mk 0 0 10 10.
Proof.
  apply (detectFramePlacement_fallback
           (frameOfAlpha 10 10 (fun x y => if (x =? 3) && (y =? 4) then 0 else 255))).
  right; right. vm_compute. reflexivity.
Defined.

End ImageProcessorFacts.

(** * The pipeline *)

Module PipelineFacts.
Import ImageProcessor ImageProcessorFacts ImageScenarios.

Lemma toySharp_contract : sharpContract toySharp.
Proof. split; intros; split; reflexivity. Qed.

(** For a frame of positive size [applyFrame] succeeds: the fitted photo
    fits the frame, and the composite is the frame with the fitted photo
    drawn over the placement. *)
Lemma applyFrame_composes
      (lib : Sharp) (defaultQuality : Z) (photo : image) (frame : raster) :
  sharpContract lib ->
  0 < width frame -> 0 < height frame ->
  let placement := detectFramePlacement frame in
  let fitted := jpegCodec lib defaultQuality
                  (resizeCover lib photo (Placement.width placement)
                               (Placement.height placement)) in
  applyFrame lib defaultQuality photo frame
  = (Some (mkImage (width frame) (height frame)
             (fun x y =>
                if inside placement x y
                then blendOver lib (pixelAt fitted (x - Placement.left placement)
                                                   (y - Placement.top placement))
                                   (pixelAt (imageOfRaster frame) x y)
                else pixelAt (imageOfRaster frame) x y)),
     [OpResize (Placement.width placement) (Placement.height placement);
      OpJpeg defaultQuality;
      OpPng;
      OpComposite (Placement.top placement) (Placement.left placement)]).
Proof.
  intros [Hresize Hjpeg] Hw Hh placement fitted.
  destruct (detectFramePlacement_within_frame frame Hw Hh) as [P1 [P2 [P3 [P4 [P5 P6]]]]].
  fold placement in P1, P2, P3, P4, P5, P6.
  assert (Fw : imageWidth fitted = Placement.width placement).
  { unfold fitted. rewrite (proj1 (Hjpeg _ _)). apply Hresize. }
  assert (Fh : imageHeight fitted = Placement.height placement).
  { unfold fitted. rewrite (proj2 (Hjpeg _ _)). apply Hresize. }
  unfold applyFrame, andThen, resize, jpeg, png, composite.
  fold placement. fold fitted. cbn [fst imageOfRaster imageWidth imageHeight].
  rewrite Fw, Fh.
  replace ((Placement.width placement <=? width frame)
           && (Placement.height placement <=? height frame)) with true
    by (symmetry; apply andb_true_iff; split; apply Z.leb_le; lia).
  reflexivity.
Qed.

(** C6: the composite of [applyFrame] has the dimensions of the frame; a
    pixel outside the placement is the pixel of the frame, and a pixel inside
    it is the fitted photo, moved by [(left, top)], drawn over the frame. *)
Theorem applyFrame_keeps_frame
        (lib : Sharp) (defaultQuality : Z) (photo : image) (frame : raster) :
  sharpContract lib ->
  0 < width frame -> 0 < height frame ->
  let placement := detectFramePlacement frame in
  let fitted := jpegCodec lib defaultQuality
                  (resizeCover lib photo (Placement.width placement)
                               (Placement.height placement)) in
  exists composed,
    fst (applyFrame lib defaultQuality photo frame) = Some composed
    /\ imageWidth composed = width frame
    /\ imageHeight composed = height frame
    /\ (forall x y, inside placement x y = false ->
          pixelAt composed x y = pixelAt (imageOfRaster frame) x y)
    /\ (forall x y, inside placement x y = true ->
          pixelAt composed x y
          = blendOver lib (pixelAt fitted (x - Placement.left placement)
                                          (y - Placement.top placement))
                          (pixelAt (imageOfRaster frame) x y)).
Proof.
  intros Hlib Hw Hh placement fitted.
  rewrite (applyFrame_composes lib defaultQuality photo frame Hlib Hw Hh).
  fold placement. fold fitted. eexists. split; [reflexivity|].
  cbn [imageWidth imageHeight pixelAt]. repeat split.
  - intros x y Hout. now rewrite Hout.
  - intros x y Hin. now rewrite Hin.
Qed.

Lemma applyFrame_keeps_frame_witness :
  exists composed,
    fst (applyFrame toySharp 95 whitePhoto smallFrame) = Some composed
    /\ imageWidth composed = 10
    /\ imageHeight composed = 10
    /\ (forall x y, inside (detectFramePlacement smallFrame) x y = false ->
          pixelAt composed x y = pixelAt (imageOfRaster smallFrame) x y)
    /\ (forall x y, inside (detectFramePlacement smallFrame) x y = true ->
          pixelAt composed x y
          = blendOver toySharp
              (pixelAt (jpegCodec toySharp 95
                          (resizeCover toySharp whitePhoto
                             (Placement.width (detectFramePlacement smallFrame))
                             (Placement.height (detectFramePlacement smallFrame))))
                       (x - Placement.left (detectFramePlacement smallFrame))
                       (y - Placement.top (detectFramePlacement smallFrame)))
              (pixelAt (imageOfRaster smallFrame) x y)).
Proof.
  apply (applyFrame_keeps_frame toySharp 95 whitePhoto smallFrame toySharp_contract);
    reflexivity.
Defined.

(** C7, as the code has it: a compositing request performs five operations,
    two of them JPEG encodes: one of the fitted photo at the default quality,
    before the composite, and one of the composite at [quality || default];
    both qualities are between 1 and 100 when the default and a given
    quality are. *)
Theorem processAndSave_encodes_twice
        (lib : Sharp) (defaultQuality : Z) (photo : image) (frame : raster)
        (quality : option Z) :
  sharpContract lib ->
  0 < width frame -> 0 < height frame ->
  let placement := detectFramePlacement frame in
  let ops := snd (processAndSave lib defaultQuality photo frame quality) in
  ops = [OpResize (Placement.width placement) (Placement.height placement);
         OpJpeg defaultQuality;
         OpPng;
         OpComposite (Placement.top placement) (Placement.left placement);
         OpJpeg (orDefault defaultQuality quality)]
  /\ List.length (filter lossy ops) = 2%nat
  /\ (1 <= defaultQuality <= 100 ->
      (forall q, quality = Some q -> 0 <= q <= 100) ->
      forall q, In (OpJpeg q) ops -> 1 <= q <= 100).
Proof.
  intros Hlib Hw Hh placement ops.
  assert (Hops : ops = [OpResize (Placement.width placement) (Placement.height placement);
                        OpJpeg defaultQuality; OpPng;
                        OpComposite (Placement.top placement) (Placement.left placement);
                        OpJpeg (orDefault defaultQuality quality)]).
  { subst ops. unfold processAndSave.
    rewrite (applyFrame_composes lib defaultQuality photo frame Hlib Hw Hh).
    reflexivity. }
  rewrite Hops. split; [reflexivity | split; [reflexivity|]].
  intros Hq Hgiven q Hin. simpl in Hin.
  destruct Hin as [H|[H|[H|[H|[H|[]]]]]]; try discriminate;
    injection H as E; rewrite <- E.
  - exact Hq.
  - unfold orDefault. destruct quality as [v|]; [|exact Hq].
    destruct (Z.eqb_spec v 0); [exact Hq|]. specialize (Hgiven v eq_refl). lia.
Qed.

Lemma processAndSave_encodes_twice_witness :
  let ops := snd (processAndSave toySharp 95 whitePhoto smallFrame None) in
  ops = [OpResize 4 3; OpJpeg 95; OpPng; OpComposite 4 3; OpJpeg 95]
  /\ List.length (filter lossy ops) = 2%nat
  /\ (1 <= 95 <= 100 ->
      (forall q, @None Z = Some q -> 0 <= q <= 100) ->
      forall q, In (OpJpeg q) ops -> 1 <= q <= 100).
Proof.
  exact (processAndSave_encodes_twice toySharp 95 whitePhoto smallFrame None
           toySharp_contract eq_refl eq_refl).
Defined.

(** C7 as stated fails: the request on the 10x10 frame encodes to JPEG
    twice, the first time before the composite, and the pixel that the
    first encode has changed is the one composited. *)
Lemma lossy_encode_once_fails :
  let ops := snd (processAndSave toySharp 95 whitePhoto smallFrame None) in
  List.length (filter lossy ops) <> 1%nat
  /\ nth_error ops 1 = Some (OpJpeg 95)
  /\ nth_error ops 3 = Some (OpComposite 4 3)
  /\ nth_error ops 4 = Some (OpJpeg 95)
  /\ pixelAt (resizeCover toySharp whitePhoto 4 3) 0 0 = [255; 255; 255]
  /\ option_map (fun c => pixelAt c 3 4)
       (fst (applyFrame toySharp 95 whitePhoto smallFrame)) = Some [254; 254; 254].
Proof.
  vm_compute. repeat split; try reflexivity. discriminate.
Qed.

End PipelineFacts.

(** * Running async functions *)

Module NodeFacts.
Import Node.

Section RunFacts.
Variable denied : string -> bool.

Lemma run_bind {A B : Type} (m : io A) (f : A -> io B) (d : directory) :
  run denied (bind m f) d
  = match run denied m d with
    | (d', Some a) => run denied (f a) d'
    | (d', None) => (d', None)
    end.
Proof.
  revert d. induction m as [a| |k IH|nm k IH|nm k IH]; intros d; simpl; auto.
  destruct (unlink denied nm d) as [ok d']. apply IH.
Qed.

Lemma run_try_catch {A : Type} (m handler : io A) (d : directory) :
  run denied (try_catch m handler) d
  = match run denied m d with
    | (d', Some a) => (d', Some a)
    | (d', None) => run denied handler d'
    end.
Proof.
  revert d. induction m as [a| |k IH|nm k IH|nm k IH]; intros d; simpl; auto.
  destruct (unlink denied nm d) as [ok d']. apply IH.
Qed.

(** Rethrowing in the handler changes nothing. *)
Lemma run_rethrow {A : Type} (m : io A) (d : directory) :
  run denied (try_catch m Throw) d = run denied m d.
Proof.
  rewrite run_try_catch. destruct (run denied m d) as [d' [a|]]; reflexivity.
Qed.

Lemma run_settle {A : Type} (m : io A) (d : directory) :
  run denied (settle m) d
  = (fst (run denied m d), Some (snd (run denied m d))).
Proof.
  unfold settle. rewrite run_try_catch, run_bind.
  destruct (run denied m d) as [d' [a|]]; reflexivity.
Qed.

Lemma run_fs_stat (nm : string) (d : directory) :
  run denied (fs_stat nm) d = (d, lookup nm d).
Proof. unfold fs_stat. simpl. destruct (lookup nm d); reflexivity. Qed.

(** Once the second function has returned, the first runs alone. *)
Lemma run_together_returned {A B : Type} (schedule : list bool) (a : io A) (b : B)
      (d : directory) :
  run denied (together schedule a (Return b)) d
  = (fst (run denied a d), Some (snd (run denied a d), Some b)).
Proof.
  revert a d. induction schedule as [|turn rest IH]; intros a d.
  - simpl together. rewrite run_bind, run_settle. reflexivity.
  - destruct turn; [|simpl; apply IH].
    destruct a as [x| |k|nm k|nm k]; simpl; try apply IH.
    destruct (unlink denied nm d) as [ok d']. apply IH.
Qed.

End RunFacts.

(** ** The directory *)

Lemma lookup_present (d : directory) (f : file) :
  NoDup (map name d) -> In f d -> lookup (name f) d = Some f.
Proof.
  unfold lookup. induction d as [|g d IH]; intros Hnd Hin; [contradiction|].
  simpl in *. inversion Hnd as [|? ? Hnotin Hnd']; subst.
  destruct Hin as [->|Hin].
  - now rewrite String.eqb_refl.
  - destruct (String.eqb_spec (name g) (name f)) as [E|_]; [|now apply IH].
    exfalso. apply Hnotin. rewrite E. now apply in_map.
Qed.

Lemma lookup_remove_other (d : directory) (nm nm' : string) :
  nm <> nm' -> lookup nm (remove nm' d) = lookup nm d.
Proof.
  intros Hne. unfold lookup, remove. induction d as [|g d IH]; simpl; [reflexivity|].
  destruct (String.eqb_spec (name g) nm') as [E|E]; simpl.
  - destruct (String.eqb_spec (name g) nm) as [E'|_]; [congruence | exact IH].
  - destruct (String.eqb_spec (name g) nm); [reflexivity | exact IH].
Qed.

Lemma in_remove (d : directory) (nm : string) (f : file) :
  In f (remove nm d) <-> In f d /\ name f <> nm.
Proof.
  unfold remove. rewrite filter_In. split; intros [H1 H2]; split; auto.
  - intros E. rewrite E, String.eqb_refl in H2. discriminate.
  - destruct (String.eqb_spec (name f) nm); [contradiction | reflexivity].
Qed.

End NodeFacts.

(** * The passes of the cleanup, run alone *)

Module CleanupFacts.
Import Node NodeFacts CleanupManager.

Lemma sumSizes_from (files : list file) (start : Z) :
  fold_left (fun total file => total + size file) files start
  = start + sumSizes files.
Proof.
  unfold sumSizes. revert start.
  induction files as [|f files IH]; intros start; simpl; [lia|].
  rewrite IH, (IH (size f)). lia.
Qed.

Lemma sumSizes_cons (f : file) (files : list file) :
  sumSizes (f :: files) = size f + sumSizes files.
Proof. unfold sumSizes at 1. simpl. apply sumSizes_from. Qed.

Lemma sumSizes_app (l1 l2 : list file) :
  sumSizes (l1 ++ l2) = sumSizes l1 + sumSizes l2.
Proof.
  induction l1 as [|f l1 IH]; simpl; [reflexivity|].
  rewrite !sumSizes_cons, IH. lia.
Qed.

Lemma sumSizes_perm (l1 l2 : list file) :
  Permutation l1 l2 -> sumSizes l1 = sumSizes l2.
Proof.
  induction 1; rewrite ?sumSizes_cons in *; lia || reflexivity.
Qed.

(** ** The sort *)

Lemma insertByMtime_perm (f : file) (l : list file) :
  Permutation (insertByMtime f l) (f :: l).
Proof.
  induction l as [|g l IH]; simpl; [reflexivity|].
  destruct (mtime f - mtime g <=? 0); [reflexivity|].
  rewrite IH. apply perm_swap.
Qed.

Lemma sortByMtime_perm (l : list file) : Permutation (sortByMtime l) l.
Proof.
  induction l as [|f l IH]; simpl; [reflexivity|].
  rewrite insertByMtime_perm. now constructor.
Qed.

Lemma insertByMtime_sorted (f : file) (l : list file) :
  StronglySorted olderOrEqual l -> StronglySorted olderOrEqual (insertByMtime f l).
Proof.
  induction 1 as [|g l Hs IH Hall]; simpl.
  - repeat constructor.
  - destruct (Z.leb_spec (mtime f - mtime g) 0) as [Hle|Hgt].
    + constructor; [now constructor|].
      constructor; [unfold olderOrEqual; lia|].
      eapply Forall_impl; [|exact Hall]. unfold olderOrEqual. intros; lia.
    + constructor; [exact IH|].
      eapply Permutation_Forall; [symmetry; apply insertByMtime_perm|].
      constructor; [unfold olderOrEqual; lia | exact Hall].
Qed.

Lemma sortByMtime_sorted (l : list file) : StronglySorted olderOrEqual (sortByMtime l).
Proof.
  induction l as [|f l IH]; simpl; [constructor | now apply insertByMtime_sorted].
Qed.

(** ** The listing *)

Section Passes.
Variable this : manager.
Variable now : Z.
Variable denied : string -> bool.

Lemma run_stat_each (d : directory) (files : list file) :
  (forall f, In f files -> lookup (name f) d = Some f) ->
  run denied (Promise_all_map statEntry (map name files)) d = (d, Some files).
Proof.
  induction files as [|f files IH]; intros Hall; [reflexivity|].
  cbn [map Promise_all_map]. unfold statEntry at 1. rewrite !run_bind, run_fs_stat.
  rewrite (Hall f) by now left. cbn [run].
  rewrite run_bind, IH by (intros g Hg; apply Hall; now right).
  cbn [run]. destruct f; reflexivity.
Qed.

Lemma uploadFiles_names (d : directory) :
  filter (isImageFile this) (map name d) = map name (uploadFiles this d).
Proof.
  unfold uploadFiles. induction d as [|f d IH]; simpl; [reflexivity|].
  destruct (isImageFile this (name f)); simpl; now rewrite IH.
Qed.

Lemma run_getUploadFiles (d : directory) :
  wellFormed d ->
  run denied (getUploadFiles this) d = (d, Some (uploadFiles this d)).
Proof.
  intros Hwf. unfold getUploadFiles. rewrite run_try_catch. simpl.
  rewrite uploadFiles_names, run_stat_each; [reflexivity|].
  intros f Hf. apply lookup_present; [exact Hwf|].
  unfold uploadFiles in Hf. apply filter_In in Hf. tauto.
Qed.

Lemma wellFormed_uploadFiles (d : directory) :
  wellFormed d -> NoDup (map name (uploadFiles this d)).
Proof.
  unfold wellFormed, uploadFiles. induction d as [|f d IH]; simpl; intros Hnd.
  - constructor.
  - inversion Hnd as [|? ? Hnotin Hnd']; subst.
    destruct (isImageFile this (name f)); simpl; [|now apply IH].
    constructor; [|now apply IH].
    intros Hin. apply Hnotin. apply in_map_iff in Hin.
    destruct Hin as [g [E Hg]]. apply filter_In in Hg.
    rewrite <- E. apply in_map. tauto.
Qed.

(** ** The loops *)

Lemma without_cons (f : file) (gone : list file) (d : directory) :
  without (f :: gone) d = without gone (remove (name f) d).
Proof. reflexivity. Qed.

Lemma present_tail (f : file) (files : list file) (d : directory) :
  present (f :: files) d -> present files (remove (name f) d).
Proof.
  intros [Hnd Hall]. inversion Hnd as [|? ? Hnotin Hnd']; subst.
  split; [exact Hnd'|]. intros g Hg.
  rewrite lookup_remove_other; [apply Hall; now right|].
  intros E. apply Hnotin. rewrite <- E. now apply in_map.
Qed.

Lemma present_skip (f : file) (files : list file) (d : directory) :
  present (f :: files) d -> present files d.
Proof.
  intros [Hnd Hall]. inversion Hnd; subst. split; [assumption|].
  intros g Hg. apply Hall. now right.
Qed.

Lemma unlink_present (f : file) (files : list file) (d : directory) :
  present (f :: files) d ->
  unlink denied (name f) d
  = if denied (name f) then (false, d) else (true, remove (name f) d).
Proof.
  intros [_ Hall]. unfold unlink.
  destruct (lookup (name f) d) eqn:E; [reflexivity|].
  exfalso. apply (Hall f); [now left | exact E].
Qed.

Lemma run_cleanOldFiles_loop (files : list file) (d : directory) (count total : Z) :
  present files d ->
  run denied (cleanOldFiles_loop this now files count total) d
  = (without (unlinkedOf denied (overAge this now files)) d,
     if noneDenied denied (overAge this now files)
     then Some (mkResult (count + Z.of_nat (List.length (overAge this now files)))
                         (total + sumSizes (withinAge this now files)))
     else None).
Proof.
  revert d count total. induction files as [|f files IH]; intros d count total Hp.
  - simpl. unfold sumSizes. simpl. now rewrite !Z.add_0_r.
  - simpl. destruct (now - mtime f >? maxAge this) eqn:Hold; simpl.
    + rewrite (unlink_present f files d Hp).
      destruct (denied (name f)) eqn:Hden; simpl; [reflexivity|].
      rewrite IH by (eapply present_tail; eassumption).
      f_equal. destruct (noneDenied _ _); [|reflexivity].
      do 2 f_equal. lia.
    + rewrite IH by (eapply present_skip; eassumption).
      rewrite sumSizes_cons. f_equal.
      destruct (noneDenied _ _); [|reflexivity]. do 2 f_equal. lia.
Qed.

Lemma run_cleanBySize_loop (files : list file) (d : directory) (count total : Z) :
  present files d ->
  run denied (cleanBySize_loop this files count total) d
  = (without (unlinkedOf denied (overSize this files total)) d,
     if noneDenied denied (overSize this files total)
     then Some (mkResult (count + Z.of_nat (List.length (overSize this files total)))
                         (total - sumSizes (overSize this files total)))
     else None).
Proof.
  revert d count total. induction files as [|f files IH]; intros d count total Hp.
  - simpl. unfold sumSizes. simpl. do 3 f_equal; lia.
  - simpl. destruct (total <=? maxSize this) eqn:Hle; simpl.
    + unfold sumSizes. simpl. do 3 f_equal; lia.
    + rewrite (unlink_present f files d Hp).
      destruct (denied (name f)) eqn:Hden; simpl; [reflexivity|].
      rewrite IH by (eapply present_tail; eassumption).
      rewrite sumSizes_cons. f_equal.
      destruct (noneDenied _ _); [|reflexivity]. do 2 f_equal; lia.
Qed.

Lemma present_uploadFiles (d : directory) :
  wellFormed d -> present (uploadFiles this d) d.
Proof.
  intros Hwf. split; [now apply wellFormed_uploadFiles|].
  intros f Hf. unfold uploadFiles in Hf. apply filter_In in Hf.
  rewrite lookup_present; [discriminate | exact Hwf | tauto].
Qed.

Lemma present_perm (l1 l2 : list file) (d : directory) :
  Permutation l1 l2 -> present l1 d -> present l2 d.
Proof.
  intros Hperm [Hnd Hall]. split.
  - eapply Permutation_NoDup; [apply Permutation_map; exact Hperm | exact Hnd].
  - intros f Hf. apply Hall. eapply Permutation_in; [symmetry; exact Hperm | exact Hf].
Qed.

(** ** The passes *)

(** [cleanOldFiles] unlinks the over-age upload files in directory order
    up to the first refusal, where it throws. *)
Lemma run_cleanOldFiles (d : directory) :
  wellFormed d ->
  let victims := overAge this now (uploadFiles this d) in
  run denied (cleanOldFiles this now) d
  = (without (unlinkedOf denied victims) d,
     if noneDenied denied victims
     then Some (mkResult (Z.of_nat (List.length victims))
                         (sumSizes (withinAge this now (uploadFiles this d))))
     else None).
Proof.
  intros Hwf victims. unfold cleanOldFiles.
  rewrite run_rethrow, run_bind, run_getUploadFiles by assumption.
  rewrite run_cleanOldFiles_loop by now apply present_uploadFiles.
  reflexivity.
Qed.

(** [cleanBySize] unlinks the oldest upload files while the total is above
    the limit, up to the first refusal, where it throws. *)
Lemma run_cleanBySize (d : directory) :
  wellFormed d ->
  let victims := sizeVictims this (uploadFiles this d) in
  run denied (cleanBySize this) d
  = (without (unlinkedOf denied victims) d,
     if noneDenied denied victims
     then Some (mkResult (Z.of_nat (List.length victims))
                         (sumSizes (uploadFiles this d) - sumSizes victims))
     else None).
Proof.
  intros Hwf victims. unfold cleanBySize.
  rewrite run_rethrow, run_bind, run_getUploadFiles by assumption.
  subst victims. unfold sizeVictims.
  destruct (sumSizes (uploadFiles this d) <=? maxSize this) eqn:Hle.
  - simpl. unfold sumSizes at 3. simpl. do 3 f_equal. lia.
  - rewrite run_cleanBySize_loop; [reflexivity|].
    eapply present_perm; [symmetry; apply sortByMtime_perm|].
    now apply present_uploadFiles.
Qed.

End Passes.

End CleanupFacts.

(** * What the passes delete *)

Module RetentionFacts.
Import Node NodeFacts CleanupManager CleanupFacts Scenarios.

Lemma in_without (gone : list file) (d : directory) (f : file) :
  In f (without gone d) <-> In f d /\ ~ In (name f) (map name gone).
Proof.
  revert d. induction gone as [|g gone IH]; intros d.
  - simpl. tauto.
  - rewrite without_cons, IH, in_remove. simpl. intuition congruence.
Qed.

Lemma wellFormed_remove (nm : string) (d : directory) :
  wellFormed d -> wellFormed (remove nm d).
Proof.
  unfold wellFormed, remove. induction d as [|g d IH]; simpl; intros Hnd; [constructor|].
  inversion Hnd as [|? ? Hnotin Hnd']; subst.
  destruct (negb (name g =? nm)%string); simpl; [|now apply IH].
  constructor; [|now apply IH].
  intros Hin. apply Hnotin. apply in_map_iff in Hin.
  destruct Hin as [h [E Hh]]. apply filter_In in Hh. rewrite <- E. apply in_map. tauto.
Qed.

Lemma wellFormed_without (gone : list file) (d : directory) :
  wellFormed d -> wellFormed (without gone d).
Proof.
  revert d. induction gone as [|g gone IH]; intros d Hwf; [exact Hwf|].
  rewrite without_cons. apply IH. now apply wellFormed_remove.
Qed.

Lemma wellFormed_NoDup (d : directory) : wellFormed d -> NoDup d.
Proof. unfold wellFormed. apply NoDup_map_inv. Qed.

Lemma same_name (d : directory) (f g : file) :
  wellFormed d -> In f d -> In g d -> name f = name g -> f = g.
Proof.
  intros Hwf Hf Hg E.
  pose proof (lookup_present d f Hwf Hf) as L1.
  pose proof (lookup_present d g Hwf Hg) as L2.
  rewrite E in L1. congruence.
Qed.

Lemma unlinkedOf_incl (denied : string -> bool) (victims : list file) (f : file) :
  In f (unlinkedOf denied victims) -> In f victims.
Proof.
  induction victims as [|g victims IH]; simpl; [tauto|].
  destruct (denied (name g)); simpl; [tauto|]. intros [E|H]; auto.
Qed.

Lemma unlinkedOf_all (denied : string -> bool) (victims : list file) :
  noneDenied denied victims = true -> unlinkedOf denied victims = victims.
Proof.
  induction victims as [|g victims IH]; simpl; [reflexivity|].
  destruct (denied (name g)); simpl; [discriminate|]. intros H. now rewrite IH.
Qed.

Lemma noneDenied_false (denied : string -> bool) (victims : list file) :
  noneDenied denied victims = false <->
  exists f, In f victims /\ denied (name f) = true.
Proof.
  unfold noneDenied. induction victims as [|g victims IH]; simpl.
  - split; [discriminate | intros [f [[] _]]].
  - rewrite andb_false_iff, IH, negb_false_iff. split.
    + intros [H|[f [Hf Hd]]]; [exists g; auto | exists f; auto].
    + intros [f [[->|Hf] Hd]]; [now left | right; exists f; auto].
Qed.

Section SizePass.
Variable this : manager.

Lemma overSize_prefix (files : list file) (total : Z) :
  exists kept, files = overSize this files total ++ kept.
Proof.
  revert total. induction files as [|f files IH]; intros total; simpl.
  - now exists [].
  - destruct (total <=? maxSize this); [now exists (f :: files)|].
    destruct (IH (total - size f)) as [kept E]. exists kept. simpl. now rewrite <- E.
Qed.

(** The loop ends under the limit when the whole list would do. *)
Lemma overSize_enough (files : list file) (total : Z) :
  total - sumSizes files <= maxSize this ->
  total - sumSizes (overSize this files total) <= maxSize this.
Proof.
  revert total. induction files as [|f files IH]; intros total H; simpl.
  - exact H.
  - destruct (Z.leb_spec total (maxSize this)).
    + unfold sumSizes. simpl. lia.
    + rewrite sumSizes_cons in *. specialize (IH (total - size f)). lia.
Qed.

(** Each file is deleted while the total is above the limit. *)
Lemma overSize_needed (files : list file) (total : Z) (pre post : list file) (v : file) :
  overSize this files total = pre ++ v :: post ->
  maxSize this < total - sumSizes pre.
Proof.
  revert total pre. induction files as [|f files IH]; intros total pre; simpl.
  - destruct pre; discriminate.
  - destruct (Z.leb_spec total (maxSize this)); [destruct pre; discriminate|].
    destruct pre as [|p pre]; simpl; intros E; inversion E; subst.
    + unfold sumSizes. simpl. lia.
    + rewrite sumSizes_cons. specialize (IH _ _ H2). lia.
Qed.

Lemma overSize_nonempty (files : list file) (total : Z) :
  maxSize this < total -> files <> [] -> overSize this files total <> [].
Proof.
  intros Hgt Hne. destruct files as [|f files]; [contradiction|]. simpl.
  destruct (Z.leb_spec total (maxSize this)); [lia | discriminate].
Qed.

End SizePass.

Lemma sorted_app_le (l1 l2 : list file) :
  StronglySorted olderOrEqual (l1 ++ l2) ->
  forall v k, In v l1 -> In k l2 -> mtime v <= mtime k.
Proof.
  induction l1 as [|f l1 IH]; simpl; intros Hs v k Hv Hk; [contradiction|].
  inversion Hs as [|? ? Hs' Hall]; subst. destruct Hv as [->|Hv].
  - rewrite Forall_forall in Hall. apply (Hall k). apply in_or_app. now right.
  - now apply IH.
Qed.

(** C3, as the code has it: a pass unlinks its files in order and throws at
    the first unlink that fails; the files before it are deleted, those after
    it are not visited, and no result is returned.  When no unlink fails the
    pass returns [{deletedCount, totalSize}]. *)
Theorem pass_throws_at_first_failed_unlink
        (this : manager) (now : Z) (denied : string -> bool) (d : directory) :
  wellFormed d ->
  let old := overAge this now (uploadFiles this d) in
  let excess := sizeVictims this (uploadFiles this d) in
  run denied (cleanOldFiles this now) d
  = (without (unlinkedOf denied old) d,
     if noneDenied denied old
     then Some (mkResult (Z.of_nat (List.length old))
                         (sumSizes (withinAge this now (uploadFiles this d))))
     else None)
  /\ run denied (cleanBySize this) d
     = (without (unlinkedOf denied excess) d,
        if noneDenied denied excess
        then Some (mkResult (Z.of_nat (List.length excess))
                            (sumSizes (uploadFiles this d) - sumSizes excess))
        else None).
Proof.
  intros Hwf old excess. split.
  - now apply run_cleanOldFiles.
  - now apply run_cleanBySize.
Qed.

Lemma wellFormed_refusedDirectory : wellFormed refusedDirectory.
Proof.
  unfold wellFormed, refusedDirectory. simpl.
  repeat constructor; simpl; intuition discriminate.
Qed.

Lemma pass_throws_at_first_failed_unlink_witness :
  run refuseOld (cleanOldFiles constructor 100000000) refusedDirectory
  = (refusedDirectory, None)
  /\ run refuseOld (cleanBySize constructor) refusedDirectory
     = (refusedDirectory, Some (mkResult 0 22)).
Proof.
  exact (pass_throws_at_first_failed_unlink constructor 100000000 refuseOld
           refusedDirectory wellFormed_refusedDirectory).
Defined.

(** C3 as stated fails: with the unlink of [old.jpg] refused the age pass
    throws, returns no result, and leaves the over-age [old2.jpg] behind. *)
Lemma pass_never_throws_fails :
  snd (run refuseOld (cleanOldFiles constructor 100000000) refusedDirectory) = None
  /\ In (mkFile "old2.jpg" 7 0)
        (fst (run refuseOld (cleanOldFiles constructor 100000000) refusedDirectory))
  /\ (100000000 - mtime (mkFile "old2.jpg" 7 0) >? maxAge constructor) = true
  /\ refuseOld "old2.jpg" = false.
Proof.
  vm_compute. repeat split; auto.
Qed.

Lemma NoDup_app_disjoint {A : Type} (l1 l2 : list A) (x : A) :
  NoDup (l1 ++ l2) -> In x l1 -> In x l2 -> False.
Proof.
  induction l1 as [|a l1 IH]; simpl; intros Hnd H1 H2; [contradiction|].
  inversion Hnd as [|? ? Hnotin Hnd']; subst. destruct H1 as [->|H1].
  - apply Hnotin. apply in_or_app. now right.
  - now apply IH.
Qed.

(** C5: above the limit and with no unlink refused, the size pass deletes a
    non-empty prefix [victims] of the upload files in ascending [mtime]
    order and keeps the rest [kept]: the kept total is within the limit, no
    deleted file is younger than a kept one, and each file is deleted only
    while the total is still above the limit. *)
Theorem cleanBySize_oldest_first
        (this : manager) (denied : string -> bool) (d : directory) :
  wellFormed d ->
  0 <= maxSize this ->
  maxSize this < sumSizes (uploadFiles this d) ->
  (forall f, In f d -> denied (name f) = false) ->
  exists victims kept,
    sortByMtime (uploadFiles this d) = victims ++ kept
    /\ victims <> []
    /\ run denied (cleanBySize this) d
       = (without victims d,
          Some (mkResult (Z.of_nat (List.length victims)) (sumSizes kept)))
    /\ Permutation (uploadFiles this (without victims d)) kept
    /\ sumSizes kept <= maxSize this
    /\ (forall v k, In v victims -> In k kept -> mtime v <= mtime k)
    /\ (forall pre v post, victims = pre ++ v :: post ->
          maxSize this < size v + sumSizes (post ++ kept)).
Proof.
  intros Hwf Hmax Hover Hden.
  set (U := uploadFiles this d) in *.
  assert (HU : forall f, In f U -> In f d /\ isImageFile this (name f) = true)
    by (intros f Hf; apply filter_In in Hf; exact Hf).
  assert (Hvic : sizeVictims this U = overSize this (sortByMtime U) (sumSizes U)).
  { unfold sizeVictims. destruct (Z.leb_spec (sumSizes U) (maxSize this)); [lia | reflexivity]. }
  destruct (overSize_prefix this (sortByMtime U) (sumSizes U)) as [kept Hsplit].
  set (victims := overSize this (sortByMtime U) (sumSizes U)) in *.
  pose proof (sortByMtime_perm U) as Hperm.
  assert (Hin : forall f, In f (victims ++ kept) <-> In f U).
  { intros f. rewrite <- Hsplit. split; apply Permutation_in; [exact Hperm | now symmetry]. }
  assert (Hnd : NoDup (victims ++ kept)).
  { rewrite <- Hsplit. eapply Permutation_NoDup; [symmetry; exact Hperm|].
    apply NoDup_filter. now apply wellFormed_NoDup. }
  assert (Hsum : sumSizes U = sumSizes victims + sumSizes kept).
  { rewrite <- sumSizes_app, <- Hsplit. symmetry. now apply sumSizes_perm. }
  assert (Hallowed : noneDenied denied victims = true).
  { apply forallb_forall. intros f Hf. rewrite Hden; [reflexivity|].
    apply HU, Hin, in_or_app. now left. }
  exists victims, kept. repeat split.
  - exact Hsplit.
  - apply overSize_nonempty; [exact Hover|].
    intros E. rewrite E in Hperm. apply Permutation_nil in Hperm.
    rewrite Hperm in Hover. unfold sumSizes in Hover. simpl in Hover. lia.
  - rewrite run_cleanBySize by assumption. fold U. rewrite Hvic. fold victims.
    rewrite Hallowed, unlinkedOf_all by assumption. do 3 f_equal. lia.
  - apply NoDup_Permutation.
    + apply NoDup_filter, wellFormed_NoDup, wellFormed_without, Hwf.
    + eapply NoDup_app_remove_l; exact Hnd.
    + intros k. unfold uploadFiles at 1. rewrite filter_In, in_without. split.
      * intros [[Hk Hname] Himg].
        assert (HkU : In k U) by (apply filter_In; auto).
        apply Hin, in_app_or in HkU. destruct HkU as [Hv|Hk']; [|exact Hk'].
        exfalso. apply Hname. now apply in_map.
      * intros Hk. assert (HkU : In k U) by (apply Hin, in_or_app; now right).
        destruct (HU k HkU) as [Hkd Himg]. repeat split; auto.
        intros Hname. apply in_map_iff in Hname. destruct Hname as [v [E Hv]].
        assert (HvU : In v U) by (apply Hin, in_or_app; now left).
        assert (v = k) by (apply (same_name d); auto; apply HU; auto).
        subst v. exact (NoDup_app_disjoint _ _ _ Hnd Hv Hk).
  - pose proof (overSize_enough this (sortByMtime U) (sumSizes U)) as He.
    fold victims in He. rewrite (sumSizes_perm _ _ Hperm) in He. lia.
  - apply sorted_app_le. rewrite <- Hsplit. apply sortByMtime_sorted.
  - intros pre v post E.
    pose proof (overSize_needed this (sortByMtime U) (sumSizes U) pre post v E) as Hn.
    rewrite Hsum, E in Hn. rewrite !sumSizes_app, sumSizes_cons in *. lia.
Qed.

Lemma cleanBySize_oldest_first_scenario :
  run (fun _ => false) (cleanBySize limit35MB) fiveImages
  = ([mkFile "c.jpg" tenMB 1000; mkFile "d.jpg" tenMB 1000; mkFile "e.jpg" tenMB 1000],
     Some (mkResult 2 (30 * 1024 * 1024)))
  /\ exists victims kept,
       sortByMtime (uploadFiles limit35MB fiveImages) = victims ++ kept
       /\ victims <> []
       /\ run (fun _ => false) (cleanBySize limit35MB) fiveImages
          = (without victims fiveImages,
             Some (mkResult (Z.of_nat (List.length victims)) (sumSizes kept)))
       /\ Permutation (uploadFiles limit35MB (without victims fiveImages)) kept
       /\ sumSizes kept <= maxSize limit35MB
       /\ (forall v k, In v victims -> In k kept -> mtime v <= mtime k)
       /\ (forall pre v post, victims = pre ++ v :: post ->
             maxSize limit35MB < size v + sumSizes (post ++ kept)).
Proof.
  split; [vm_compute; reflexivity|].
  apply (cleanBySize_oldest_first limit35MB (fun _ => false) fiveImages).
  - unfold wellFormed, fiveImages. simpl. repeat constructor; simpl; intuition discriminate.
  - vm_compute. discriminate.
  - vm_compute. reflexivity.
  - reflexivity.
Defined.

End RetentionFacts.

(** * Files that are not images *)

Module ImageFilterFacts.
Import Node NodeFacts CleanupManager CleanupFacts RetentionFacts Scenarios.

(** ** Letter case *)

Lemma lowerChar_slash (c : ascii) : Ascii.eqb (lowerChar c) "/" = Ascii.eqb c "/".
Proof. destruct c as [[] [] [] [] [] [] [] []]; reflexivity. Qed.

Lemma lowerChar_dot (c : ascii) : Ascii.eqb (lowerChar c) "." = Ascii.eqb c ".".
Proof. destruct c as [[] [] [] [] [] [] [] []]; reflexivity. Qed.

Lemma lowerChar_idempotent (c : ascii) : lowerChar (lowerChar c) = lowerChar c.
Proof. destruct c as [[] [] [] [] [] [] [] []]; reflexivity. Qed.

Lemma toLowerCase_idempotent (s : string) : toLowerCase (toLowerCase s) = toLowerCase s.
Proof.
  induction s as [|c s IH]; simpl; [reflexivity|].
  now rewrite lowerChar_idempotent, IH.
Qed.

Lemma length_toLowerCase (s : string) : String.length (toLowerCase s) = String.length s.
Proof. induction s as [|c s IH]; simpl; [reflexivity | now rewrite IH]. Qed.

Lemma get_toLowerCase (s : string) (n : nat) :
  String.get n (toLowerCase s) = option_map lowerChar (String.get n s).
Proof.
  revert n. induction s as [|c s IH]; intros n; simpl; [reflexivity|].
  destruct n; [reflexivity | apply IH].
Qed.

Lemma substring_toLowerCase (s : string) (n m : nat) :
  substring n m (toLowerCase s) = toLowerCase (substring n m s).
Proof.
  revert n m. induction s as [|c s IH]; intros n m; simpl.
  - destruct n, m; reflexivity.
  - destruct n; [destruct m; simpl; [reflexivity | now rewrite IH] | apply IH].
Qed.

Lemma extnameStep_toLowerCase (path : string) (st : extnameState) (i : Z) :
  extnameStep (toLowerCase path) st i = extnameStep path st i.
Proof.
  unfold extnameStep. rewrite get_toLowerCase.
  destruct (String.get (Z.to_nat i) path) as [c|]; simpl; [|reflexivity].
  now rewrite lowerChar_slash, lowerChar_dot.
Qed.

Lemma extname_toLowerCase (path : string) :
  extname (toLowerCase path) = toLowerCase (extname path).
Proof.
  unfold extname. rewrite length_toLowerCase.
  replace (fold_left (extnameStep (toLowerCase path))
                     (rev (range (Z.of_nat (String.length path))))
                     (mkExtnameState (-1) 0 (-1) true 0 false))
    with (fold_left (extnameStep path)
                    (rev (range (Z.of_nat (String.length path))))
                    (mkExtnameState (-1) 0 (-1) true 0 false)).
  - destruct (_ || _); [reflexivity | apply substring_toLowerCase].
  - generalize (mkExtnameState (-1) 0 (-1) true 0 false).
    induction (rev (range (Z.of_nat (String.length path)))) as [|i l IH];
      intros st; simpl; [reflexivity|].
    now rewrite extnameStep_toLowerCase, IH.
Qed.

(** [isImageFile] does not tell a name from its lower case. *)
Lemma isImageFile_toLowerCase (this : manager) (filename : string) :
  isImageFile this (toLowerCase filename) = isImageFile this filename.
Proof.
  unfold isImageFile. now rewrite extname_toLowerCase, toLowerCase_idempotent.
Qed.

Section Ignored.
Variable this : manager.
Variable now : Z.
Variable denied : string -> bool.

Lemma run_getUploadStats (d : directory) :
  wellFormed d ->
  run denied (getUploadStats this now) d
  = (d, Some (mkStats (Z.of_nat (List.length (uploadFiles this d)))
                      (sumSizes (uploadFiles this d))
                      (option_map name (oldestOf (uploadFiles this d)))
                      (option_map (fun f => now - mtime f)
                                  (oldestOf (uploadFiles this d))))).
Proof.
  intros Hwf. unfold getUploadStats.
  rewrite run_try_catch, run_bind, run_getUploadFiles by assumption. reflexivity.
Qed.

Lemma sizeVictims_incl (files : list file) (g : file) :
  In g (sizeVictims this files) -> In g files.
Proof.
  unfold sizeVictims. destruct (sumSizes files <=? maxSize this); [contradiction|].
  destruct (overSize_prefix this (sortByMtime files) (sumSizes files)) as [kept E].
  intros Hg. eapply Permutation_in; [apply sortByMtime_perm|].
  rewrite E. apply in_or_app. now left.
Qed.

Lemma uploadFiles_remove_other (d : directory) (nm : string) :
  isImageFile this nm = false ->
  uploadFiles this (remove nm d) = uploadFiles this d.
Proof.
  intros Hnm. unfold uploadFiles, remove.
  induction d as [|g d IH]; simpl; [reflexivity|].
  destruct (String.eqb_spec (name g) nm) as [E|E]; simpl.
  - rewrite E, Hnm. exact IH.
  - destruct (isImageFile this (name g)); now rewrite IH.
Qed.

(** A file that is not an image stays when image files are unlinked. *)
Lemma kept_by_without (d : directory) (gone : list file) (f : file) :
  In f d -> isImageFile this (name f) = false ->
  (forall g, In g gone -> isImageFile this (name g) = true) ->
  In f (without gone d).
Proof.
  intros Hf Him Hgone. apply in_without. split; [exact Hf|].
  intros Hin. apply in_map_iff in Hin. destruct Hin as [g [E Hg]].
  apply Hgone in Hg. congruence.
Qed.

Lemma isImageFile_uploadFiles (d : directory) (g : file) :
  In g (uploadFiles this d) -> isImageFile this (name g) = true.
Proof. unfold uploadFiles. rewrite filter_In. tauto. Qed.

End Ignored.

(** C10: a file of the uploads directory whose extension, in lower case, is
    none of .jpg, .jpeg and .png is deleted by neither pass, whatever
    unlinks fail, and the results of the passes and of the stats query are
    those of the directory without it; whether a name counts as an image
    does not depend on the case of its letters. *)
Theorem other_extensions_are_ignored
        (this : manager) (now : Z) (denied : string -> bool)
        (d : directory) (f : file) :
  wellFormed d ->
  supportedExtensions this = [".jpg"%string; ".jpeg"%string; ".png"%string] ->
  In f d ->
  ~ In (toLowerCase (extname (name f))) [".jpg"%string; ".jpeg"%string; ".png"%string] ->
  In f (fst (run denied (cleanOldFiles this now) d))
  /\ In f (fst (run denied (cleanBySize this) d))
  /\ In f (fst (run denied (getUploadStats this now) d))
  /\ snd (run denied (cleanOldFiles this now) (remove (name f) d))
     = snd (run denied (cleanOldFiles this now) d)
  /\ snd (run denied (cleanBySize this) (remove (name f) d))
     = snd (run denied (cleanBySize this) d)
  /\ snd (run denied (getUploadStats this now) (remove (name f) d))
     = snd (run denied (getUploadStats this now) d)
  /\ (forall filename,
        isImageFile this (toLowerCase filename) = isImageFile this filename).
Proof.
  intros Hwf Hext Hf Hother.
  assert (Him : isImageFile this (name f) = false).
  { unfold isImageFile. rewrite Hext.
    destruct (existsb _ _) eqn:E; [|reflexivity].
    exfalso. apply Hother. apply existsb_exists in E.
    destruct E as [x [Hx Heq]]. apply String.eqb_eq in Heq. now subst x. }
  pose proof (wellFormed_remove (name f) d Hwf) as Hwf'.
  rewrite !run_cleanOldFiles, !run_cleanBySize, !run_getUploadStats by assumption.
  rewrite !(uploadFiles_remove_other this d (name f) Him). simpl.
  repeat split; try assumption.
  - apply (kept_by_without this); auto.
    intros g Hg. apply unlinkedOf_incl in Hg. unfold overAge in Hg.
    apply filter_In in Hg. apply (isImageFile_uploadFiles this d). tauto.
  - apply (kept_by_without this); auto.
    intros g Hg. apply unlinkedOf_incl, sizeVictims_incl in Hg.
    now apply (isImageFile_uploadFiles this d).
  - apply isImageFile_toLowerCase.
Qed.

Lemma other_extensions_are_ignored_witness :
  let notes := mkFile "notes.txt" 7 0 in
  In notes (fst (run nothingDenied (cleanOldFiles constructor 100000000) withNotes))
  /\ In notes (fst (run nothingDenied (cleanBySize constructor) withNotes))
  /\ In notes (fst (run nothingDenied (getUploadStats constructor 100000000) withNotes))
  /\ snd (run nothingDenied (cleanOldFiles constructor 100000000)
              (remove "notes.txt" withNotes))
     = snd (run nothingDenied (cleanOldFiles constructor 100000000) withNotes)
  /\ snd (run nothingDenied (cleanBySize constructor) (remove "notes.txt" withNotes))
     = snd (run nothingDenied (cleanBySize constructor) withNotes)
  /\ snd (run nothingDenied (getUploadStats constructor 100000000)
              (remove "notes.txt" withNotes))
     = snd (run nothingDenied (getUploadStats constructor 100000000) withNotes)
  /\ (forall filename,
        isImageFile constructor (toLowerCase filename) = isImageFile constructor filename).
Proof.
  intros notes.
  apply (other_extensions_are_ignored constructor 100000000 nothingDenied withNotes notes).
  - unfold wellFormed, withNotes. simpl. repeat constructor; simpl; intuition discriminate.
  - reflexivity.
  - simpl. auto.
  - vm_compute. intuition discriminate.
Defined.

End ImageFilterFacts.

(** * The two passes started together *)

Module FullCleanupFacts.
Import Node NodeFacts CleanupManager CleanupFacts RetentionFacts ImageFilterFacts Scenarios.

Lemma inTurn_app (n m : nat) : inTurn (n + m) = inTurn n ++ inTurn m.
Proof. induction n as [|n IH]; simpl; [reflexivity | now rewrite IH]. Qed.

Lemma relays_bind {A B C : Type} (ctx : io B -> io C) (g : A -> io B) :
  relays ctx -> relays (fun m => ctx (bind m g)).
Proof. intros H nm k. simpl. apply H. Qed.

Section Together.
Variable this : manager.
Variable now : Z.
Variable denied : string -> bool.

(** While both functions stat the same files in turn, nothing changes:
    both end up with the same list. *)
Lemma together_stat_each (d : directory) (files : list file) :
  (forall f, In f files -> lookup (name f) d = Some f) ->
  forall (X Y : Type) (ca : io (list file) -> io X) (cb : io (list file) -> io Y)
         (rest : list bool),
  relays ca -> relays cb ->
  run denied (together (inTurn (List.length files) ++ rest)
                       (ca (Promise_all_map statEntry (map name files)))
                       (cb (Promise_all_map statEntry (map name files)))) d
  = run denied (together rest (ca (Return files)) (cb (Return files))) d.
Proof.
  induction files as [|f files IH]; intros Hall X Y ca cb rest Hca Hcb.
  - reflexivity.
  - set (g := fun vs : list file => Return (mkFile (name f) (size f) (mtime f) :: vs)).
    set (k := fun st : option file =>
                v <- (st' <- match st with Some h => Return h | None => Throw end ;;
                      Return (mkFile (name f) (size st') (mtime st'))) ;;
                vs <- Promise_all_map statEntry (map name files) ;;
                Return (v :: vs)).
    change (Promise_all_map statEntry (map name (f :: files)))
      with (Stat (name f) k).
    rewrite Hca, Hcb.
    change (inTurn (List.length (f :: files)) ++ rest)
      with (true :: false :: inTurn (List.length files) ++ rest).
    cbn [together run]. rewrite (Hall f) by now left.
    change (k (Some f)) with (bind (Promise_all_map statEntry (map name files)) g).
    rewrite (IH (fun h Hh => Hall h (or_intror Hh)) X Y
                (fun m => ca (bind m g)) (fun m => cb (bind m g)) rest
                (relays_bind ca g Hca) (relays_bind cb g Hcb)).
    subst g. cbn [bind]. destruct f; reflexivity.
Qed.

(** Under completion in turn both passes list the directory before the
    age pass unlinks; within the size limit the size pass returns at once
    and the age pass goes on alone. *)
Lemma run_together_in_turn (d : directory) (n : nat) :
  wellFormed d ->
  (List.length (uploadFiles this d) < n)%nat ->
  sumSizes (uploadFiles this d) <= maxSize this ->
  run denied (together (inTurn n) (cleanOldFiles this now) (cleanBySize this)) d
  = (fst (run denied (cleanOldFiles this now) d),
     Some (snd (run denied (cleanOldFiles this now) d),
           Some (mkResult 0 (sumSizes (uploadFiles this d))))).
Proof.
  intros Hwf Hn Hsum.
  set (ca := fun m : io (list file) =>
               try_catch (files <- try_catch m (Return []) ;;
                          cleanOldFiles_loop this now files 0 0) Throw).
  set (cb := fun m : io (list file) =>
               try_catch (files <- try_catch m (Return []) ;;
                          let totalSize := sumSizes files in
                          if totalSize <=? maxSize this
                          then Return (mkResult 0 totalSize)
                          else cleanBySize_loop this (sortByMtime files) 0 totalSize)
                         Throw).
  assert (Hsolo : run denied (cleanOldFiles this now) d
                  = run denied (ca (Return (uploadFiles this d))) d).
  { unfold cleanOldFiles, ca. rewrite !run_rethrow, run_bind, run_getUploadFiles by assumption.
    reflexivity. }
  rewrite Hsolo.
  change (cleanOldFiles this now)
    with (Readdir (fun names =>
            ca (Promise_all_map (statEntry) (filter (isImageFile this) names)))).
  change (cleanBySize this)
    with (Readdir (fun names =>
            cb (Promise_all_map (statEntry) (filter (isImageFile this) names)))).
  replace n with (1 + (List.length (uploadFiles this d)
                       + (n - 1 - List.length (uploadFiles this d))))%nat by lia.
  change (inTurn (1 + ?m)) with (true :: false :: inTurn m).
  cbn [together run]. rewrite uploadFiles_names, inTurn_app.
  rewrite together_stat_each.
  - assert (Hcb : cb (Return (uploadFiles this d))
                  = Return (mkResult 0 (sumSizes (uploadFiles this d)))).
    { unfold cb. cbn [try_catch bind].
      destruct (Z.leb_spec (sumSizes (uploadFiles this d)) (maxSize this)); [reflexivity | lia]. }
    rewrite Hcb. apply run_together_returned.
  - intros f Hf. apply lookup_present; [exact Hwf|].
    unfold uploadFiles in Hf. apply filter_In in Hf. tauto.
  - intros nm k. reflexivity.
  - intros nm k. reflexivity.
Qed.

End Together.

(** C2, as the code has it: the two passes are started together and each
    lists the directory itself.  When their operations complete in turn and
    the upload files are within the size limit, the size pass reports the
    total of all upload files found at the start, those the age pass of the
    same run deletes included, and the age pass does what it does alone. *)
Theorem runFullCleanup_lists_before_deleting
        (this : manager) (now : Z) (denied : string -> bool)
        (d d' : directory) (n : nat) (ageResult : result) :
  wellFormed d ->
  (List.length (uploadFiles this d) < n)%nat ->
  sumSizes (uploadFiles this d) <= maxSize this ->
  run denied (cleanOldFiles this now) d = (d', Some ageResult) ->
  exists stats,
    run denied (runFullCleanup this now (inTurn n)) d
    = (d', Some (mkFullResult ageResult
                              (mkResult 0 (sumSizes (uploadFiles this d)))
                              stats)).
Proof.
  intros Hwf Hn Hsum Hage.
  assert (Hwf' : wellFormed d').
  { pose proof (run_cleanOldFiles this now denied d Hwf) as E. cbv zeta in E.
    rewrite Hage in E. inversion E. now apply wellFormed_without. }
  unfold runFullCleanup, Promise_all2.
  rewrite run_rethrow, !run_bind, run_together_in_turn by assumption.
  rewrite Hage. cbn [fst snd run]. rewrite run_bind, run_getUploadStats by assumption.
  eexists. reflexivity.
Qed.

Lemma runFullCleanup_lists_before_deleting_witness :
  exists stats,
    run nothingDenied (runFullCleanup constructor 100000000 (inTurn 3)) oldAndNew
    = ([mkFile "new.png" 5 99999999],
       Some (mkFullResult (mkResult 1 5) (mkResult 0 15) stats)).
Proof.
  apply (runFullCleanup_lists_before_deleting constructor 100000000 nothingDenied
           oldAndNew [mkFile "new.png" 5 99999999] 3 (mkResult 1 5)).
  - unfold wellFormed, oldAndNew. simpl. repeat constructor; simpl; intuition discriminate.
  - vm_compute. lia.
  - vm_compute. discriminate.
  - vm_compute. reflexivity.
Defined.

(** C2 as stated fails.  With an over-age image of 10 bytes and a recent one
    of 5, the age pass leaves 5 bytes, yet the size pass of the same run
    reports 15; and with a limit of 12 bytes the size pass unlinks the
    over-age image, which the age pass has deleted, so that the run throws,
    whereas the size pass run after the age pass returns [{0, 5}]. *)
Lemma size_pass_over_survivors_fails :
  let survivors := fst (run nothingDenied (cleanOldFiles constructor 100000000) oldAndNew) in
  sumSizes (uploadFiles constructor survivors) = 5
  /\ option_map sizeCleanup
       (snd (run nothingDenied (runFullCleanup constructor 100000000 (inTurn 3)) oldAndNew))
     = Some (mkResult 0 15)
  /\ snd (run nothingDenied (runFullCleanup limit12 100000000 (inTurn 3)) oldAndNew) = None
  /\ snd (run nothingDenied (cleanBySize limit12) survivors) = Some (mkResult 0 5).
Proof.
  vm_compute. repeat split; reflexivity.
Qed.

End FullCleanupFacts.

(** * The triggers of the cleanup *)

Module ServerFacts.
Import Node NodeFacts CleanupManager PhotoBoothServer Scenarios.

Section Triggers.
Variable this : manager.
Variable now : Z.
Variable denied : string -> bool.
Variable schedule : list bool.

(** A run starts by awaiting [readdir], whatever the schedule. *)
Lemma runFullCleanup_awaits_readdir :
  exists k, runFullCleanup this now schedule = Readdir k.
Proof.
  destruct schedule as [|[|] rest]; eexists; reflexivity.
Qed.

Lemma scheduledCleanup_pending :
  settled (Scheduled (scheduledCleanup this now schedule)) = false.
Proof.
  unfold scheduledCleanup. destruct runFullCleanup_awaits_readdir as [k ->].
  reflexivity.
Qed.

Lemma runCleanup_pending :
  settled (Requested (runCleanup this now schedule)) = false.
Proof.
  unfold runCleanup. destruct runFullCleanup_awaits_readdir as [k ->].
  reflexivity.
Qed.

Lemma activeRuns_started (d : directory) (tasks : list task) (t : task) :
  settled t = false ->
  activeRuns (mkServer d (tasks ++ [t])) = S (activeRuns (mkServer d tasks)).
Proof.
  intros Ht. unfold activeRuns. simpl.
  rewrite filter_app, length_app. simpl. rewrite Ht. simpl. lia.
Qed.

End Triggers.

(** C9, as the code has it: there is no gate.  A firing of the timer and a
    cleanup request each start a run at once, whatever runs are in flight, so
    that [n] requests in a row add [n] runs in flight. *)
Theorem every_trigger_starts_a_run
        (this : manager) (now : Z) (denied : string -> bool) (schedule : list bool)
        (s : server) :
  activeRuns (handle this now denied schedule s TimerFires) = S (activeRuns s)
  /\ activeRuns (handle this now denied schedule s CleanupRequested) = S (activeRuns s)
  /\ forall n, activeRuns (serve this now denied schedule s (repeat CleanupRequested n))
               = (activeRuns s + n)%nat.
Proof.
  assert (Hreq : forall s', activeRuns (handle this now denied schedule s' CleanupRequested)
                            = S (activeRuns s')).
  { intros [d tasks]. apply activeRuns_started, runCleanup_pending. }
  repeat split.
  - destruct s as [d tasks]. apply activeRuns_started, scheduledCleanup_pending.
  - apply Hreq.
  - intros n. unfold serve. revert s.
    induction n as [|n IH]; intros s; cbn [repeat fold_left]; [lia|].
    rewrite IH, Hreq. lia.
Qed.

(** C9 as stated fails: after the timer has fired and a cleanup has been
    requested two runs are in flight; when their operations complete in turn
    both come to await the unlink of the same file, and the one served
    second throws. *)
Lemma one_pass_at_a_time_fails :
  let serve' := serve constructor 100000000 nothingDenied (inTurn 3) in
  let s2 := serve' idleServer twoTriggers in
  let s10 := serve' s2 fourEach in
  ~ (activeRuns s2 <= 1)%nat
  /\ map (awaitsUnlink "old.jpg") (inFlight s10) = [true; true]
  /\ match inFlight s10 with
     | [t1; t2] =>
         let (t1', d1) := resumeTask nothingDenied t1 (uploads s10) in
         let (t2', d2) := resumeTask nothingDenied t2 d1 in
         (settled t1', rejected t2', d2) = (false, true, [])
     | _ => False
     end.
Proof.
  cbv zeta. split; [|split].
  - assert (E : activeRuns (serve constructor 100000000 nothingDenied (inTurn 3)
                                  idleServer twoTriggers) = 2%nat)
      by (vm_compute; reflexivity).
    rewrite E. lia.
  - vm_compute. reflexivity.
  - vm_compute. reflexivity.
Qed.

End ServerFacts.

(** * The passes, in terms of the directory they leave *)

Module PassOutcomeFacts.
Import Node NodeFacts CleanupManager CleanupFacts RetentionFacts ImageFilterFacts Scenarios.

Lemma filter_filter {A : Type} (p q : A -> bool) (l : list A) :
  filter p (filter q l) = filter (fun x => q x && p x) l.
Proof.
  induction l as [|x l IH]; simpl; [reflexivity|].
  destruct (q x); simpl; [destruct (p x)|]; now rewrite IH.
Qed.

Lemma in_names (d : directory) (files : list file) (f : file) :
  wellFormed d -> incl files d -> In f d ->
  (In (name f) (map name files) <-> In f files).
Proof.
  intros Hwf Hincl Hf. split.
  - intros Hin. apply in_map_iff in Hin. destruct Hin as [g [E Hg]].
    assert (g = f) by (apply (same_name d); auto).
    now subst g.
  - apply in_map.
Qed.

Lemma without_permutation (d : directory) (gone : list file) :
  wellFormed d -> NoDup gone -> incl gone d ->
  Permutation d (gone ++ without gone d).
Proof.
  intros Hwf Hnd Hincl. apply NoDup_Permutation.
  - now apply wellFormed_NoDup.
  - apply NoDup_app; [exact Hnd | apply wellFormed_NoDup, wellFormed_without, Hwf |].
    intros f Hf Hf'. apply in_without in Hf'. destruct Hf' as [_ Hn].
    apply Hn. now apply in_map.
  - intros f. rewrite in_app_iff, in_without. split.
    + intros Hf. destruct (in_dec string_dec (name f) (map name gone)) as [Hin|Hout].
      * left. now apply (in_names d gone f).
      * right. tauto.
    + intros [Hf|[Hf _]]; auto.
Qed.

Section AgePass.
Variable this : manager.
Variable now : Z.
Variable denied : string -> bool.

Lemma overAge_incl (d : directory) : incl (overAge this now (uploadFiles this d)) d.
Proof.
intros f Hf. unfold overAge, uploadFiles in Hf.
apply filter_In in Hf. destruct Hf as [Hf _]. apply filter_In in Hf. tauto.
Qed.

Lemma in_overAge (d : directory) (f : file) :
In f (overAge this now (uploadFiles this d)) <->
In f d /\ isImageFile this (name f) = true /\ maxAge this < now - mtime f.
Proof.
unfold overAge, uploadFiles. rewrite !filter_In, Z.gtb_lt. tauto.
Qed.

Lemma uploadFiles_without_overAge (d : directory) :
wellFormed d ->
uploadFiles this (without (overAge this now (uploadFiles this d)) d)
= withinAge this now (uploadFiles this d).
Proof.
intros Hwf.
assert (E : forall gone d0, without gone d0
            = filter (fun f => negb (existsb (fun g => String.eqb (name g) (name f)) gone)) d0).
{ induction gone as [|g gone IH]; intros d0.
  - simpl. induction d0 as [|x d0 IHd]; simpl; [reflexivity | now rewrite <- IHd].
  - rewrite without_cons, IH. unfold remove. rewrite filter_filter.
    apply filter_ext. intros f. simpl.
    rewrite negb_orb, (String.eqb_sym (name g) (name f)). reflexivity. }
rewrite E. unfold uploadFiles, withinAge. rewrite !filter_filter.
apply filter_ext_in. intros f Hf.
destruct (isImageFile this (name f)) eqn:Him; [|now rewrite andb_false_r].
rewrite andb_true_r. simpl. f_equal.
destruct (now - mtime f >? maxAge this) eqn:Hold.
- apply existsb_exists. exists f. split; [|apply String.eqb_refl].
  apply in_overAge. rewrite Z.gtb_lt in Hold. tauto.
- destruct (existsb _ _) eqn:Hex; [|reflexivity].
  apply existsb_exists in Hex. destruct Hex as [g [Hg Hname]].
  apply String.eqb_eq in Hname.
  assert (g = f) by (apply (same_name d); auto; now apply overAge_incl).
  subst g. apply in_overAge in Hg. rewrite Z.gtb_ltb, Z.ltb_ge in Hold. lia.
Qed.

Lemma noneDenied_allowed (d : directory) (files : list file) :
incl files d -> (forall f, In f d -> denied (name f) = false) ->
noneDenied denied files = true.
Proof.
intros Hincl Hall. apply forallb_forall. intros f Hf.
now rewrite Hall by (apply Hincl, Hf).
Qed.

End AgePass.

(** X1: with no unlink refused the age pass leaves exactly the files that
    are not over-age images, counts the files it has deleted, and returns
    the total size of the upload files it leaves. *)
Theorem cleanOldFiles_postcondition
        (this : manager) (now : Z) (denied : string -> bool) (d : directory) :
  wellFormed d ->
  (forall f, In f d -> denied (name f) = false) ->
  exists d' r,
    run denied (cleanOldFiles this now) d = (d', Some r)
    /\ (forall f, In f d' <->
          In f d /\ ~ (isImageFile this (name f) = true /\ maxAge this < now - mtime f))
    /\ Z.of_nat (List.length d) = Z.of_nat (List.length d') + deletedCount r
    /\ totalSize r = sumSizes (uploadFiles this d').
Proof.
  intros Hwf Hall.
  set (V := overAge this now (uploadFiles this d)).
  pose proof (overAge_incl this now d) as Hincl. fold V in Hincl.
  exists (without V d), (mkResult (Z.of_nat (List.length V))
                                  (sumSizes (withinAge this now (uploadFiles this d)))).
  repeat split.
  - rewrite run_cleanOldFiles by assumption. fold V.
    rewrite (noneDenied_allowed denied d V Hincl Hall).
    now rewrite unlinkedOf_all by (apply (noneDenied_allowed denied d V Hincl Hall)).
  - apply in_without in H. tauto.
  - intros [Him Hold]. apply in_without in H. destruct H as [Hf Hn].
    apply Hn. apply in_map. apply in_overAge. tauto.
  - intros [Hf Hn]. apply in_without. split; [exact Hf|].
    intros Hin. apply (in_names d V f Hwf Hincl Hf) in Hin.
    apply in_overAge in Hin. tauto.
  - simpl.
    assert (Hnd : NoDup V).
    { unfold V, overAge, uploadFiles. now apply NoDup_filter, NoDup_filter, wellFormed_NoDup. }
    pose proof (Permutation_length (without_permutation d V Hwf Hnd Hincl)) as Hlen.
    rewrite length_app in Hlen. lia.
  - simpl. unfold V. now rewrite uploadFiles_without_overAge.
Qed.

Lemma overAge_withinAge (this : manager) (now : Z) (files : list file) :
  overAge this now (withinAge this now files) = [].
Proof.
  unfold overAge, withinAge. rewrite filter_filter.
  induction files as [|f files IH]; simpl; [reflexivity|].
  destruct (now - mtime f >? maxAge this); simpl; exact IH.
Qed.

Lemma withinAge_withinAge (this : manager) (now : Z) (files : list file) :
  withinAge this now (withinAge this now files) = withinAge this now files.
Proof.
  unfold withinAge. rewrite filter_filter. apply filter_ext.
  intros f. now destruct (now - mtime f >? maxAge this).
Qed.

(** X2: once the age pass has run with no unlink refused, a second run at
    the same clock reading deletes nothing and returns the same total. *)
Theorem cleanOldFiles_second_run
        (this : manager) (now : Z) (denied : string -> bool) (d : directory) :
  wellFormed d ->
  (forall f, In f d -> denied (name f) = false) ->
  forall d' r,
    run denied (cleanOldFiles this now) d = (d', Some r) ->
    run denied (cleanOldFiles this now) d' = (d', Some (mkResult 0 (totalSize r))).
Proof.
  intros Hwf Hall d' r Hrun.
  rewrite run_cleanOldFiles in Hrun by assumption.
  set (V := overAge this now (uploadFiles this d)) in *.
  pose proof (overAge_incl this now d) as Hincl. fold V in Hincl.
  rewrite (noneDenied_allowed denied d V Hincl Hall) in Hrun.
  rewrite unlinkedOf_all in Hrun by (apply (noneDenied_allowed denied d V Hincl Hall)).
  inversion Hrun; subst d' r; clear Hrun.
  rewrite run_cleanOldFiles by now apply wellFormed_without.
  unfold V. rewrite uploadFiles_without_overAge by assumption.
  rewrite overAge_withinAge, withinAge_withinAge. reflexivity.
Qed.

Section SizeOutcome.
Variable this : manager.

Lemma sizeVictims_incl_directory (d : directory) :
incl (sizeVictims this (uploadFiles this d)) d.
Proof.
intros f Hf. apply sizeVictims_incl in Hf.
unfold uploadFiles in Hf. apply filter_In in Hf. tauto.
Qed.

(** The files the size pass deletes and the files it keeps. *)
Lemma sizeVictims_split (d : directory) :
wellFormed d -> 0 <= maxSize this ->
exists kept,
  sortByMtime (uploadFiles this d) = sizeVictims this (uploadFiles this d) ++ kept
  /\ sumSizes kept <= maxSize this
  /\ sumSizes (uploadFiles this d)
     = sumSizes (sizeVictims this (uploadFiles this d)) + sumSizes kept
  /\ NoDup (sizeVictims this (uploadFiles this d) ++ kept)
  /\ Permutation (uploadFiles this (without (sizeVictims this (uploadFiles this d)) d)) kept.
Proof.
intros Hwf Hmax.
set (U := uploadFiles this d).
assert (HU : forall f, In f U -> In f d /\ isImageFile this (name f) = true)
  by (intros f Hf; apply filter_In in Hf; exact Hf).
pose proof (sortByMtime_perm U) as Hperm.
assert (Hsplit : exists kept, sortByMtime U = sizeVictims this U ++ kept
                              /\ sumSizes kept <= maxSize this).
{ unfold sizeVictims. destruct (Z.leb_spec (sumSizes U) (maxSize this)) as [Hle|Hgt].
  - exists (sortByMtime U). split; [reflexivity|].
    now rewrite (sumSizes_perm _ _ Hperm).
  - destruct (overSize_prefix this (sortByMtime U) (sumSizes U)) as [kept E].
    exists kept. split; [exact E|].
    pose proof (overSize_enough this (sortByMtime U) (sumSizes U)) as He.
    rewrite (sumSizes_perm _ _ Hperm) in He.
    assert (Hs : sumSizes U = sumSizes (overSize this (sortByMtime U) (sumSizes U))
                              + sumSizes kept).
    { rewrite <- sumSizes_app, <- E. symmetry. now apply sumSizes_perm. }
    lia. }
destruct Hsplit as [kept [Hsplit Hkept]]. exists kept.
set (V := sizeVictims this U) in *.
assert (Hin : forall f, In f (V ++ kept) <-> In f U).
{ intros f. rewrite <- Hsplit. split; apply Permutation_in; [exact Hperm | now symmetry]. }
assert (Hnd : NoDup (V ++ kept)).
{ rewrite <- Hsplit. eapply Permutation_NoDup; [symmetry; exact Hperm|].
  apply NoDup_filter. now apply wellFormed_NoDup. }
repeat split; try assumption.
- rewrite <- sumSizes_app, <- Hsplit. symmetry. now apply sumSizes_perm.
- apply NoDup_Permutation.
  + apply NoDup_filter, wellFormed_NoDup, wellFormed_without, Hwf.
  + eapply NoDup_app_remove_l; exact Hnd.
  + intros k. unfold uploadFiles at 1. rewrite filter_In, in_without. split.
    * intros [[Hk Hname] Himg].
      assert (HkU : In k U) by (apply filter_In; auto).
      apply Hin, in_app_or in HkU. destruct HkU as [Hv|Hk']; [|exact Hk'].
      exfalso. apply Hname. now apply in_map.
    * intros Hk. assert (HkU : In k U) by (apply Hin, in_or_app; now right).
      destruct (HU k HkU) as [Hkd Himg]. repeat split; auto.
      intros Hname. apply in_map_iff in Hname. destruct Hname as [v [E Hv]].
      assert (HvU : In v U) by (apply Hin, in_or_app; now left).
      assert (v = k) by (apply (same_name d); auto; apply HU; auto).
      subst v. exact (NoDup_app_disjoint _ _ _ Hnd Hv Hk).
Qed.

End SizeOutcome.

(** X3: with a non-negative limit and no unlink refused the size pass
    always returns; the total it returns is the total size of the upload
    files it leaves and is within the limit, it only removes entries, it
    counts them, and a second run deletes nothing. *)
Theorem cleanBySize_postcondition
        (this : manager) (denied : string -> bool) (d : directory) :
  wellFormed d ->
  0 <= maxSize this ->
  (forall f, In f d -> denied (name f) = false) ->
  exists d' r,
    run denied (cleanBySize this) d = (d', Some r)
    /\ totalSize r = sumSizes (uploadFiles this d')
    /\ totalSize r <= maxSize this
    /\ incl d' d
    /\ Z.of_nat (List.length d) = Z.of_nat (List.length d') + deletedCount r
    /\ run denied (cleanBySize this) d' = (d', Some (mkResult 0 (totalSize r))).
Proof.
  intros Hwf Hmax Hall.
  set (V := sizeVictims this (uploadFiles this d)).
  pose proof (sizeVictims_incl_directory this d) as Hincl. fold V in Hincl.
  destruct (sizeVictims_split this d Hwf Hmax) as [kept [Hsplit [Hkept [Hsum [Hnd Hperm]]]]].
  fold V in Hsplit, Hsum, Hnd, Hperm.
  assert (Hallowed : noneDenied denied V = true)
    by (apply (noneDenied_allowed denied d V Hincl Hall)).
  assert (Htotal : sumSizes (uploadFiles this (without V d)) = sumSizes kept)
    by now apply sumSizes_perm.
  exists (without V d), (mkResult (Z.of_nat (List.length V)) (sumSizes kept)).
  split; [|split; [|split; [|split; [|split]]]].
  - rewrite run_cleanBySize by assumption. fold V.
    rewrite Hallowed, unlinkedOf_all by assumption. do 3 f_equal. lia.
  - simpl. now rewrite Htotal.
  - exact Hkept.
  - intros f Hf. apply in_without in Hf. tauto.
  - simpl. apply NoDup_app_remove_r in Hnd.
    pose proof (Permutation_length (without_permutation d V Hwf Hnd Hincl)) as Hlen.
    rewrite length_app in Hlen. lia.
  - rewrite run_cleanBySize by now apply wellFormed_without.
    assert (Hv : sizeVictims this (uploadFiles this (without V d)) = []).
    { unfold sizeVictims.
      destruct (Z.leb_spec (sumSizes (uploadFiles this (without V d))) (maxSize this));
        [reflexivity | lia]. }
    cbv zeta. rewrite Hv. simpl. rewrite Htotal. unfold sumSizes at 2. simpl.
    do 3 f_equal. lia.
Qed.

(** X4: an upload file larger than the limit does not survive the size
    pass, and neither does any upload file older than it. *)
Theorem cleanBySize_oversized_file
        (this : manager) (denied : string -> bool) (d : directory) (f : file) :
  wellFormed d ->
  0 <= maxSize this ->
  (forall g, In g d -> denied (name g) = false) ->
  (forall g, In g d -> 0 <= size g) ->
  In f d -> isImageFile this (name f) = true ->
  maxSize this < size f ->
  let d' := fst (run denied (cleanBySize this) d) in
  ~ In f d'
  /\ forall g, In g d -> isImageFile this (name g) = true -> mtime g < mtime f -> ~ In g d'.
Proof.
  intros Hwf Hmax Hall Hsize Hf Him Hbig.
  set (V := sizeVictims this (uploadFiles this d)).
  pose proof (sizeVictims_incl_directory this d) as Hincl. fold V in Hincl.
  destruct (sizeVictims_split this d Hwf Hmax) as [kept [Hsplit [Hkept [Hsum [Hnd Hperm]]]]].
  fold V in Hsplit, Hsum, Hnd, Hperm.
  assert (Hallowed : noneDenied denied V = true)
    by (apply (noneDenied_allowed denied d V Hincl Hall)).
  assert (Hd' : fst (run denied (cleanBySize this) d) = without V d).
  { rewrite run_cleanBySize by assumption. fold V.
    now rewrite unlinkedOf_all by assumption. }
  cbv zeta. rewrite Hd'.
  assert (Hsplit_in : forall g, In g d -> isImageFile this (name g) = true ->
                                In g V \/ In g kept).
  { intros g Hg Hgi. apply in_app_or. rewrite <- Hsplit.
    eapply Permutation_in; [symmetry; apply sortByMtime_perm|].
    apply filter_In. auto. }
  assert (Hkept_in : forall g, In g kept -> In g d).
  { intros g Hg.
    assert (In g (sortByMtime (uploadFiles this d)))
      by (rewrite Hsplit; apply in_or_app; now right).
    apply (Permutation_in _ (sortByMtime_perm _)) in H.
    apply filter_In in H. tauto. }
  assert (Hsmall : forall g, In g kept -> size g <= sumSizes kept).
  { clear - Hsize Hkept_in. induction kept as [|k kept IH]; intros g Hg; [contradiction|].
    rewrite sumSizes_cons.
    assert (Hpos : 0 <= sumSizes kept).
    { clear - Hsize Hkept_in. induction kept as [|k' kept IH].
      - unfold sumSizes. simpl. lia.
      - rewrite sumSizes_cons.
        assert (0 <= size k') by (apply Hsize, Hkept_in; right; now left).
        assert (0 <= sumSizes kept).
        { apply IH. intros g Hg. apply Hkept_in. destruct Hg as [->|Hg];
            [now left | right; now right]. }
        lia. }
    assert (0 <= size k) by (apply Hsize, Hkept_in; now left).
    destruct Hg as [->|Hg]; [lia|].
    assert (size g <= sumSizes kept)
      by (apply IH; auto; intros h Hh; apply Hkept_in; now right).
    lia. }
  assert (HfV : In f V).
  { destruct (Hsplit_in f Hf Him) as [H|H]; [exact H|].
    apply Hsmall in H. lia. }
  split.
  - intros Hin. apply in_without in Hin. destruct Hin as [_ Hn].
    apply Hn. now apply in_map.
  - intros g Hg Hgi Holder Hin. apply in_without in Hin. destruct Hin as [_ Hn].
    destruct (Hsplit_in g Hg Hgi) as [H|H]; [apply Hn; now apply in_map|].
    assert (mtime f <= mtime g).
    { apply (sorted_app_le V kept); auto. rewrite <- Hsplit. apply sortByMtime_sorted. }
    lia.
Qed.

(** ** The passes on the directories of the examples *)

Lemma wellFormed_oldAndNew : wellFormed oldAndNew.
Proof.
  unfold wellFormed, oldAndNew. simpl. repeat constructor; simpl; intuition discriminate.
Qed.

Lemma wellFormed_withNotes : wellFormed withNotes.
Proof.
  unfold wellFormed, withNotes. simpl. repeat constructor; simpl; intuition discriminate.
Qed.

Lemma cleanOldFiles_postcondition_witness :
  exists d' r,
    run nothingDenied (cleanOldFiles constructor 100000000) withNotes = (d', Some r)
    /\ (forall f, In f d' <->
          In f withNotes
          /\ ~ (isImageFile constructor (name f) = true
                /\ maxAge constructor < 100000000 - mtime f))
    /\ Z.of_nat (List.length withNotes) = Z.of_nat (List.length d') + deletedCount r
    /\ totalSize r = sumSizes (uploadFiles constructor d').
Proof.
  apply (cleanOldFiles_postcondition constructor 100000000 nothingDenied withNotes).
  - exact wellFormed_withNotes.
  - intros f _. reflexivity.
Defined.

Lemma cleanOldFiles_second_run_witness :
  run nothingDenied (cleanOldFiles constructor 100000000) withNotes
  = ([mkFile "notes.txt" 7 0; mkFile "new.PNG" 5 99999999], Some (mkResult 1 5))
  /\ run nothingDenied (cleanOldFiles constructor 100000000)
         [mkFile "notes.txt" 7 0; mkFile "new.PNG" 5 99999999]
     = ([mkFile "notes.txt" 7 0; mkFile "new.PNG" 5 99999999], Some (mkResult 0 5)).
Proof.
  assert (Hrun : run nothingDenied (cleanOldFiles constructor 100000000) withNotes
                 = ([mkFile "notes.txt" 7 0; mkFile "new.PNG" 5 99999999],
                    Some (mkResult 1 5)))
    by (vm_compute; reflexivity).
  split; [exact Hrun|].
  apply (cleanOldFiles_second_run constructor 100000000 nothingDenied withNotes
           wellFormed_withNotes (fun _ _ => eq_refl) _ (mkResult 1 5) Hrun).
Defined.

Lemma cleanBySize_postcondition_witness :
  exists d' r,
    run nothingDenied (cleanBySize limit12) oldAndNew = (d', Some r)
    /\ totalSize r = sumSizes (uploadFiles limit12 d')
    /\ totalSize r <= maxSize limit12
    /\ incl d' oldAndNew
    /\ Z.of_nat (List.length oldAndNew) = Z.of_nat (List.length d') + deletedCount r
    /\ run nothingDenied (cleanBySize limit12) d' = (d', Some (mkResult 0 (totalSize r))).
Proof.
  apply (cleanBySize_postcondition limit12 nothingDenied oldAndNew).
  - exact wellFormed_oldAndNew.
  - vm_compute. discriminate.
  - intros f _. reflexivity.
Defined.

Lemma cleanBySize_oversized_file_witness :
  let this := setConfig constructor (mkOptions None (Some 8) None) in
  let d' := fst (run nothingDenied (cleanBySize this) oldAndNew) in
  ~ In (mkFile "old.jpg" 10 0) d'
  /\ forall g, In g oldAndNew -> isImageFile this (name g) = true ->
               mtime g < mtime (mkFile "old.jpg" 10 0) -> ~ In g d'.
Proof.
  apply (cleanBySize_oversized_file
           (setConfig constructor (mkOptions None (Some 8) None))
           nothingDenied oldAndNew (mkFile "old.jpg" 10 0)).
  - exact wellFormed_oldAndNew.
  - vm_compute. discriminate.
  - intros g _. reflexivity.
  - intros g [<-|[<-|[]]]; vm_compute; discriminate.
  - left. reflexivity.
  - vm_compute. reflexivity.
  - vm_compute. reflexivity.
Defined.

End PassOutcomeFacts.

(** * Listing, statistics and the two passes together *)

Module ListingFacts.
Import Node NodeFacts CleanupManager CleanupFacts RetentionFacts ImageFilterFacts
       PassOutcomeFacts Scenarios.

Lemma lookup_remove_same (nm : string) (d : directory) : lookup nm (remove nm d) = None.
Proof.
  unfold lookup, remove. induction d as [|g d IH]; simpl; [reflexivity|].
  destruct (String.eqb_spec (name g) nm) as [E|E]; simpl; [exact IH|].
  destruct (String.eqb_spec (name g) nm); [contradiction | exact IH].
Qed.

Section Listing.
Variable this : manager.
Variable now : Z.
Variable denied : string -> bool.

(** The stats leave the directory as it is. *)
Lemma run_stat_each_unchanged (names : list string) (d : directory) :
fst (run denied (Promise_all_map statEntry names) d) = d.
Proof.
induction names as [|nm names IH]; [reflexivity|].
cbn [Promise_all_map]. unfold statEntry at 1. rewrite !run_bind, run_fs_stat.
destruct (lookup nm d) as [f|]; [|reflexivity]. cbn [run].
rewrite run_bind. destruct (run denied (Promise_all_map statEntry names) d) as [d' [files|]];
  simpl in *; congruence.
Qed.

(** The listing is rejected when one of the names has no entry. *)
Lemma run_stat_each_missing (names : list string) (d : directory) (nm : string) :
In nm names -> lookup nm d = None ->
run denied (Promise_all_map statEntry names) d = (d, None).
Proof.
induction names as [|x names IH]; intros Hin Hmiss; [contradiction|].
cbn [Promise_all_map]. unfold statEntry at 1. rewrite !run_bind, run_fs_stat.
destruct (lookup x d) as [f|] eqn:Hx; [|reflexivity]. cbn [run].
destruct Hin as [->|Hin]; [congruence|].
rewrite run_bind, IH by assumption. reflexivity.
Qed.

(** On every directory [getUploadFiles] returns and changes nothing. *)
Lemma run_getUploadFiles_any (d : directory) :
exists files, run denied (getUploadFiles this) d = (d, Some files).
Proof.
unfold getUploadFiles. rewrite run_try_catch. cbn [bind fs_readdir run].
pose proof (run_stat_each_unchanged (filter (isImageFile this) (map name d)) d) as Hfst.
destruct (run denied (Promise_all_map statEntry (filter (isImageFile this) (map name d))) d)
  as [d' [files|]]; simpl in Hfst; subst d'.
- now exists files.
- now exists [].
Qed.

Lemma run_getUploadStats_any (d : directory) :
exists st, run denied (getUploadStats this now) d = (d, Some st).
Proof.
unfold getUploadStats. rewrite run_try_catch, run_bind.
destruct (run_getUploadFiles_any d) as [files ->]. cbn [run]. eexists. reflexivity.
Qed.

End Listing.

(** X5: when an upload file disappears between the [readdir] of
    [getUploadFiles] and its stats, the listing is empty, not shorter: the
    size pass that has listed so returns [{0, 0}] and deletes nothing. *)
Theorem getUploadFiles_all_or_nothing
        (this : manager) (denied : string -> bool) (d : directory) (f : file) :
  In f d ->
  isImageFile this (name f) = true ->
  let d' := remove (name f) d in
  run denied (fst (resume denied (getUploadFiles this) d)) d' = (d', Some [])
  /\ run denied (fst (resume denied (cleanBySize this) d)) d'
     = (d', Some (mkResult 0 0)).
Proof.
  intros Hf Him d'.
  assert (Hnames : In (name f) (filter (isImageFile this) (map name d))).
  { apply filter_In. split; [now apply in_map | exact Him]. }
  pose proof (run_stat_each_missing denied _ d' (name f) Hnames
                (lookup_remove_same (name f) d)) as Hrej.
  split.
  - cbn [resume getUploadFiles fs_readdir try_catch bind fst].
    rewrite run_try_catch.
    change (run denied (files <- Return (map name d) ;;
                        Promise_all_map statEntry (filter (isImageFile this) files)) d')
      with (run denied (Promise_all_map statEntry
                          (filter (isImageFile this) (map name d))) d').
    now rewrite Hrej.
  - cbn [resume cleanBySize getUploadFiles fs_readdir try_catch bind fst].
    rewrite run_rethrow, run_bind, run_try_catch.
    change (run denied (files <- Return (map name d) ;;
                        Promise_all_map statEntry (filter (isImageFile this) files)) d')
      with (run denied (Promise_all_map statEntry
                          (filter (isImageFile this) (map name d))) d').
    rewrite Hrej. cbn [run]. unfold sumSizes. simpl.
    destruct (Z.leb_spec 0 (maxSize this)); reflexivity.
Qed.

(** The fold of [oldestOf] ends on the first file of least [mtime]. *)
Lemma oldest_fold (l : list file) (first : file) :
  let r := fold_left (fun oldest file =>
                        if mtime file <? mtime oldest then file else oldest) l first in
  (r = first /\ forall g, In g l -> mtime first <= mtime g)
  \/ (exists l1 l2, l = l1 ++ r :: l2 /\ mtime r < mtime first
                    /\ (forall g, In g l1 -> mtime r < mtime g)
                    /\ (forall g, In g l2 -> mtime r <= mtime g)).
Proof.
  revert first. induction l as [|x l IH]; intros first; cbv zeta.
  - left. split; [reflexivity | intros g []].
  - cbn [fold_left]. destruct (Z.ltb_spec (mtime x) (mtime first)) as [Hlt|Hge].
    + right. destruct (IH x) as [[Hr Hall] | [l1 [l2 [El [Hlt' [H1 H2]]]]]].
      * exists [], l. simpl. rewrite Hr. repeat split; auto. intros g [].
      * exists (x :: l1), l2. simpl. rewrite El at 1. repeat split; auto; try lia.
        intros g [<-|Hg]; [lia | now apply H1].
    + destruct (IH first) as [[Hr Hall] | [l1 [l2 [El [Hlt' [H1 H2]]]]]].
      * left. split; [exact Hr|]. intros g [<-|Hg]; [lia | now apply Hall].
      * right. exists (x :: l1), l2. simpl. rewrite El at 1. repeat split; auto.
        intros g [<-|Hg]; [lia | now apply H1].
Qed.

(** X6: the stats query changes nothing and reports the number and the
    total size of the upload files; the oldest file it names is the first
    upload file, in directory order, of least [mtime], and none when there is
    no upload file. *)
Theorem getUploadStats_oldest_file
        (this : manager) (now : Z) (denied : string -> bool) (d : directory) :
  wellFormed d ->
  exists st,
    run denied (getUploadStats this now) d = (d, Some st)
    /\ fileCount st = Z.of_nat (List.length (uploadFiles this d))
    /\ statsTotalSize st = sumSizes (uploadFiles this d)
    /\ (uploadFiles this d = [] -> oldestFile st = None /\ oldestFileAge st = None)
    /\ (uploadFiles this d <> [] ->
        exists l1 f l2,
          uploadFiles this d = l1 ++ f :: l2
          /\ oldestFile st = Some (name f)
          /\ oldestFileAge st = Some (now - mtime f)
          /\ (forall g, In g l1 -> mtime f < mtime g)
          /\ (forall g, In g l2 -> mtime f <= mtime g)).
Proof.
  intros Hwf. rewrite run_getUploadStats by assumption.
  eexists. split; [reflexivity|]. cbn [fileCount statsTotalSize oldestFile oldestFileAge].
  repeat split.
  - now rewrite H.
  - now rewrite H.
  - intros Hne. destruct (uploadFiles this d) as [|first rest]; [contradiction|].
    cbn [oldestOf option_map].
    pose proof (oldest_fold rest first) as Hfold. cbv zeta in Hfold.
    set (r := fold_left _ rest first) in *. clearbody r.
    destruct Hfold as [[Hr Hall] | [l1 [l2 [El [Hlt [H1 H2]]]]]].
    + exists [], first, rest. rewrite Hr. repeat split; auto. intros g [].
    + exists (first :: l1), r, l2. repeat split; auto.
      * simpl. now f_equal.
      * intros g [<-|Hg]; [lia | now apply H1].
Qed.

(** X8: [isImageFile] lower-cases the extension of the file, not those of
    the configuration: after [setConfig] with extensions that all contain an
    upper-case letter no file name is an image. *)
Theorem uppercase_extensions_match_nothing
        (this : manager) (extensions : list string) :
  (forall e, In e extensions -> toLowerCase e <> e) ->
  let this' := setConfig this (mkOptions None None (Some extensions)) in
  forall filename, isImageFile this' filename = false.
Proof.
  intros Hupper this' filename. unfold isImageFile. subst this'. cbn [setConfig supportedExtensions optSupportedExtensions].
  destruct (existsb _ _) eqn:E; [|reflexivity].
  apply existsb_exists in E. destruct E as [e [He Heq]].
  apply String.eqb_eq in Heq. exfalso. apply (Hupper e He).
  rewrite <- Heq. apply toLowerCase_idempotent.
Qed.

(** ** Async functions that change nothing *)

Section Quiet.
Variable denied : string -> bool.

Lemma remove_length (nm : string) (d : directory) :
(List.length (remove nm d) <= List.length d)%nat.
Proof.
unfold remove. induction d as [|g d IH]; simpl; [lia|].
destruct (negb (name g =? nm)%string); simpl; lia.
Qed.

Lemma remove_found_length (nm : string) (d : directory) (f : file) :
lookup nm d = Some f -> (List.length (remove nm d) < List.length d)%nat.
Proof.
unfold lookup, remove. induction d as [|g d IH]; simpl; [discriminate|].
destruct (String.eqb_spec (name g) nm) as [E|E]; simpl.
- intros _. pose proof (remove_length nm d). unfold remove in H. lia.
- intros H. apply IH in H. lia.
Qed.

Lemma unlink_outcome (nm : string) (d : directory) :
(fst (unlink denied nm d) = false /\ snd (unlink denied nm d) = d)
\/ (fst (unlink denied nm d) = true
    /\ (List.length (snd (unlink denied nm d)) < List.length d)%nat).
Proof.
unfold unlink. destruct (lookup nm d) as [f|] eqn:E; [|now left].
destruct (denied nm); [now left|]. right. split; [reflexivity|].
simpl. eapply remove_found_length; eassumption.
Qed.

Lemma run_length {A : Type} (p : io A) (d : directory) :
(List.length (fst (run denied p d)) <= List.length d)%nat.
Proof.
revert d. induction p as [a| |k IH|nm k IH|nm k IH]; intros d; simpl; auto.
destruct (unlink_outcome nm d) as [[H1 H2]|[H1 H2]];
  destruct (unlink denied nm d) as [ok d']; simpl in H1, H2; subst ok.
- subst d'. apply IH.
- specialize (IH true d'). lia.
Qed.

(** Two async functions that leave the directory as it is when run alone
  do so when started together, and return what they return alone,
  whatever the order in which their operations complete. *)
Lemma run_together_quiet {A B : Type} (schedule : list bool) (a : io A) (b : io B)
    (d : directory) :
fst (run denied a d) = d -> fst (run denied b d) = d ->
run denied (together schedule a b) d
= (d, Some (snd (run denied a d), snd (run denied b d))).
Proof.
revert a b. induction schedule as [|turn rest IH]; intros a b Ha Hb.
- cbn [together]. rewrite run_bind, run_settle, Ha. rewrite run_bind, run_settle, Hb.
  reflexivity.
- destruct turn.
  + destruct a as [x| |k|nm k|nm k]; cbn [together run] in *; try (apply IH; assumption).
    destruct (unlink_outcome nm d) as [[H1 H2]|[H1 H2]];
      destruct (unlink denied nm d) as [ok d']; simpl in H1, H2; subst ok.
    * subst d'. now apply IH.
    * exfalso. pose proof (run_length (k true) d') as Hlen. rewrite Ha in Hlen. lia.
  + destruct b as [x| |k|nm k|nm k]; cbn [together run] in *; try (apply IH; assumption).
    destruct (unlink_outcome nm d) as [[H1 H2]|[H1 H2]];
      destruct (unlink denied nm d) as [ok d']; simpl in H1, H2; subst ok.
    * subst d'. now apply IH.
    * exfalso. pose proof (run_length (k true) d') as Hlen. rewrite Hb in Hlen. lia.
Qed.

(** When every operation of the first function completes before any of
  the second, the second runs on what the first leaves. *)
Lemma run_together_first {A B : Type} (n : nat) (a : io A) (b : io B) (d : directory) :
run denied (together (repeat true n) a b) d
= (fst (run denied b (fst (run denied a d))),
   Some (snd (run denied a d), snd (run denied b (fst (run denied a d))))).
Proof.
revert a d. induction n as [|n IH]; intros a d.
- cbn [repeat together]. rewrite run_bind, run_settle. rewrite run_bind, run_settle.
  reflexivity.
- cbn [repeat]. destruct a as [x| |k|nm k|nm k]; cbn [together run]; try apply IH.
  destruct (unlink denied nm d) as [ok d']. apply IH.
Qed.

End Quiet.

Lemma overAge_none (this : manager) (now : Z) (files : list file) :
  (forall f, In f files -> now - mtime f <= maxAge this) ->
  overAge this now files = [] /\ withinAge this now files = files.
Proof.
  unfold overAge, withinAge. induction files as [|f l IH]; intros Hyoung; [now split|].
  simpl. destruct (Z.gtb_spec (now - mtime f) (maxAge this)) as [Hgt|_].
  - specialize (Hyoung f (or_introl eq_refl)). lia.
  - destruct IH as [IH1 IH2]; [intros g Hg; apply Hyoung; now right|].
    simpl. now rewrite IH1, IH2.
Qed.

(** X9: over a directory with no over-age upload file and within the size
    limit the full cleanup deletes nothing and returns [{0, total}] for both
    passes, whatever the order in which the operations of the two passes
    complete and whatever unlinks would fail. *)
Theorem runFullCleanup_nothing_to_do
        (this : manager) (now : Z) (denied : string -> bool)
        (schedule : list bool) (d : directory) :
  wellFormed d ->
  (forall f, In f (uploadFiles this d) -> now - mtime f <= maxAge this) ->
  sumSizes (uploadFiles this d) <= maxSize this ->
  exists st,
    run denied (runFullCleanup this now schedule) d
    = (d, Some (mkFullResult (mkResult 0 (sumSizes (uploadFiles this d)))
                             (mkResult 0 (sumSizes (uploadFiles this d)))
                             st)).
Proof.
  intros Hwf Hyoung Hsum.
  pose proof (overAge_none this now (uploadFiles this d) Hyoung) as [Hold Hin].
  assert (Hage : run denied (cleanOldFiles this now) d
                 = (d, Some (mkResult 0 (sumSizes (uploadFiles this d))))).
  { rewrite run_cleanOldFiles by assumption. cbv zeta. rewrite Hold, Hin. reflexivity. }
  assert (Hsize : run denied (cleanBySize this) d
                  = (d, Some (mkResult 0 (sumSizes (uploadFiles this d))))).
  { rewrite run_cleanBySize by assumption. cbv zeta. unfold sizeVictims.
    destruct (Z.leb_spec (sumSizes (uploadFiles this d)) (maxSize this)); [|lia].
    simpl. unfold sumSizes at 2. simpl. do 3 f_equal. lia. }
  destruct (run_getUploadStats_any this now denied d) as [st Hst].
  exists st. unfold runFullCleanup, Promise_all2.
  rewrite run_rethrow, !run_bind.
  rewrite run_together_quiet by (rewrite ?Hage, ?Hsize; reflexivity).
  rewrite Hage, Hsize. cbn [fst snd run]. rewrite run_bind, Hst. reflexivity.
Qed.

(** X10: when every operation of the age pass completes before any of the
    size pass, the size pass runs on the directory the age pass leaves, and
    the statistics are those of the directory the size pass leaves. *)
Theorem runFullCleanup_age_pass_first
        (this : manager) (now : Z) (denied : string -> bool) (n : nat)
        (d d1 d2 : directory) (ageResult sizeResult : result) :
  run denied (cleanOldFiles this now) d = (d1, Some ageResult) ->
  run denied (cleanBySize this) d1 = (d2, Some sizeResult) ->
  exists st,
    run denied (getUploadStats this now) d2 = (d2, Some st)
    /\ run denied (runFullCleanup this now (repeat true n)) d
       = (d2, Some (mkFullResult ageResult sizeResult st)).
Proof.
  intros Hage Hsize.
  destruct (run_getUploadStats_any this now denied d2) as [st Hst].
  exists st. split; [exact Hst|].
  unfold runFullCleanup, Promise_all2.
  rewrite run_rethrow, !run_bind, run_together_first.
  rewrite Hage. cbn [fst snd]. rewrite Hsize. cbn [fst snd run].
  rewrite run_bind, Hst. reflexivity.
Qed.

(** ** The listing on the directories of the examples *)

Lemma getUploadFiles_all_or_nothing_witness :
  let d' := remove "old.jpg"%string oldAndNew in
  run nothingDenied (fst (resume nothingDenied (getUploadFiles constructor) oldAndNew)) d'
  = (d', Some [])
  /\ run nothingDenied (fst (resume nothingDenied (cleanBySize constructor) oldAndNew)) d'
     = (d', Some (mkResult 0 0)).
Proof.
  apply (getUploadFiles_all_or_nothing constructor nothingDenied oldAndNew
           (mkFile "old.jpg" 10 0)).
  - left. reflexivity.
  - vm_compute. reflexivity.
Defined.

Lemma getUploadStats_oldest_file_witness :
  exists st,
    run nothingDenied (getUploadStats constructor 100000000) withNotes
    = (withNotes, Some st)
    /\ fileCount st = 2
    /\ statsTotalSize st = 15
    /\ oldestFile st = Some "old.jpg"%string.
Proof.
  destruct (getUploadStats_oldest_file constructor 100000000 nothingDenied withNotes
              wellFormed_withNotes) as [st [Hrun _]].
  exists st. split; [exact Hrun|].
  vm_compute in Hrun. inversion Hrun. repeat split; reflexivity.
Defined.

Lemma uppercase_extensions_match_nothing_witness :
  isImageFile (setConfig constructor
                 (mkOptions None None (Some [".JPG"%string; ".PNG"%string])))
              "photo.JPG" = false
  /\ isImageFile (setConfig constructor
                    (mkOptions None None (Some [".JPG"%string; ".PNG"%string])))
                 "photo.jpg" = false.
Proof.
  assert (Hupper : forall e, In e [".JPG"%string; ".PNG"%string] -> toLowerCase e <> e)
    by (intros e [<-|[<-|[]]]; vm_compute; discriminate).
  split.
  - exact (uppercase_extensions_match_nothing constructor _ Hupper "photo.JPG"%string).
  - exact (uppercase_extensions_match_nothing constructor _ Hupper "photo.jpg"%string).
Defined.

Lemma runFullCleanup_nothing_to_do_witness :
  exists st,
    run refuseOld (runFullCleanup constructor 100000000 [true; false; false])
        [mkFile "notes.txt" 7 0; mkFile "new.PNG" 5 99999999]
    = ([mkFile "notes.txt" 7 0; mkFile "new.PNG" 5 99999999],
       Some (mkFullResult (mkResult 0 5) (mkResult 0 5) st)).
Proof.
  apply (runFullCleanup_nothing_to_do constructor 100000000 refuseOld [true; false; false]
           [mkFile "notes.txt" 7 0; mkFile "new.PNG" 5 99999999]).
  - unfold wellFormed. simpl. repeat constructor; simpl; intuition discriminate.
  - intros f Hf. vm_compute in Hf. destruct Hf as [<-|[]]. vm_compute. discriminate.
  - vm_compute. discriminate.
Defined.

Lemma runFullCleanup_age_pass_first_witness :
  exists st,
    run nothingDenied (getUploadStats limit12 100000000) [mkFile "new.png" 5 99999999]
    = ([mkFile "new.png" 5 99999999], Some st)
    /\ run nothingDenied (runFullCleanup limit12 100000000 (repeat true 3)) oldAndNew
       = ([mkFile "new.png" 5 99999999],
          Some (mkFullResult (mkResult 1 5) (mkResult 0 5) st)).
Proof.
  apply (runFullCleanup_age_pass_first limit12 100000000 nothingDenied 3
           oldAndNew [mkFile "new.png" 5 99999999] [mkFile "new.png" 5 99999999]
           (mkResult 1 5) (mkResult 0 5)).
  - vm_compute. reflexivity.
  - vm_compute. reflexivity.
Defined.

End ListingFacts.

(** * What no cleanup call does *)

Module GuardFacts.
Import Node NodeFacts CleanupManager CleanupFacts PhotoBoothServer ServerCalls ListingFacts.

Lemma guarded_weaken {A : Type} (P : string -> bool) (Q Q' : A -> Prop) (m : io A) :
  (forall a, Q a -> Q' a) -> guarded P Q m -> guarded P Q' m.
Proof.
  intros Himp. induction 1; constructor; auto.
Qed.

Lemma guarded_bind {A B : Type} (P : string -> bool) (Q : A -> Prop) (R : B -> Prop)
      (m : io A) (f : A -> io B) :
  guarded P Q m -> (forall a, Q a -> guarded P R (f a)) -> guarded P R (bind m f).
Proof.
  intros Hm Hf. induction Hm; simpl; try (constructor; auto); auto.
Qed.

Lemma guarded_try_catch {A : Type} (P : string -> bool) (Q : A -> Prop)
      (m handler : io A) :
  guarded P Q m -> guarded P Q handler -> guarded P Q (try_catch m handler).
Proof.
  intros Hm Hh. induction Hm; simpl; try (constructor; auto); auto.
Qed.

Lemma guarded_settle {A : Type} (P : string -> bool) (Q : A -> Prop) (m : io A) :
  guarded P Q m -> guarded P anything (settle m).
Proof.
  intros Hm. unfold settle. apply guarded_try_catch.
  - eapply guarded_bind; [exact Hm|]. intros a _. now constructor.
  - now constructor.
Qed.

Lemma guarded_together {A B : Type} (P : string -> bool) (Qa : A -> Prop) (Qb : B -> Prop)
      (schedule : list bool) (a : io A) (b : io B) :
  guarded P Qa a -> guarded P Qb b -> guarded P anything (together schedule a b).
Proof.
  revert a b. induction schedule as [|turn rest IH]; intros a b Ha Hb.
  - cbn [together]. eapply guarded_bind; [eapply guarded_settle; exact Ha|].
    intros ra _. eapply guarded_bind; [eapply guarded_settle; exact Hb|].
    intros rb _. now constructor.
  - destruct turn.
    + inversion Ha; subst; cbn [together]; try (now apply IH);
        constructor; auto.
    + inversion Hb; subst; cbn [together]; try (now apply IH);
        constructor; auto.
Qed.

Section GuardedCleanup.
Variable this : manager.
Variable now : Z.

Let image (nm : string) : bool := isImageFile this nm.
Let images (files : list file) : Prop := Forall (fun f => image (name f) = true) files.

Lemma guarded_statEntry (nm : string) :
guarded image (fun f => name f = nm) (statEntry nm).
Proof.
unfold statEntry, fs_stat. cbn [bind]. constructor. intros [f|]; cbn [bind].
- now constructor.
- constructor.
Qed.

Lemma guarded_stat_each (names : list string) :
Forall (fun nm => image nm = true) names ->
guarded image images (Promise_all_map statEntry names).
Proof.
induction 1 as [|nm names Hnm Hall IH]; cbn [Promise_all_map].
- constructor. constructor.
- eapply guarded_bind; [apply guarded_statEntry|]. intros f Hf.
  eapply guarded_bind; [exact IH|]. intros files Hfiles.
  constructor. constructor; [now rewrite Hf | exact Hfiles].
Qed.

Lemma guarded_getUploadFiles : guarded image images (getUploadFiles this).
Proof.
unfold getUploadFiles. apply guarded_try_catch.
- cbn [fs_readdir bind]. constructor. intros names. cbn [bind].
  apply guarded_stat_each. apply Forall_forall. intros nm Hnm.
  apply filter_In in Hnm. tauto.
- constructor. constructor.
Qed.

Lemma guarded_cleanOldFiles_loop (files : list file) (count total : Z) :
images files -> guarded image anything (cleanOldFiles_loop this now files count total).
Proof.
intros Hfiles. revert count total.
induction Hfiles as [|f files Hf Hall IH]; intros count total; cbn [cleanOldFiles_loop].
- now constructor.
- destruct (now - mtime f >? maxAge this); [|apply IH].
  unfold fs_unlink. cbn [bind]. constructor; [exact Hf|].
  intros [|]; cbn [bind]; [apply IH | constructor].
Qed.

Lemma guarded_cleanBySize_loop (files : list file) (count total : Z) :
images files -> guarded image anything (cleanBySize_loop this files count total).
Proof.
intros Hfiles. revert count total.
induction Hfiles as [|f files Hf Hall IH]; intros count total; cbn [cleanBySize_loop].
- now constructor.
- destruct (total <=? maxSize this); [now constructor|].
  unfold fs_unlink. cbn [bind]. constructor; [exact Hf|].
  intros [|]; cbn [bind]; [apply IH | constructor].
Qed.

Lemma guarded_cleanOldFiles : guarded image anything (cleanOldFiles this now).
Proof.
unfold cleanOldFiles. apply guarded_try_catch; [|constructor].
eapply guarded_bind; [apply guarded_getUploadFiles|].
intros files Hfiles. now apply guarded_cleanOldFiles_loop.
Qed.

Lemma guarded_cleanBySize : guarded image anything (cleanBySize this).
Proof.
unfold cleanBySize. apply guarded_try_catch; [|constructor].
eapply guarded_bind; [apply guarded_getUploadFiles|].
intros files Hfiles. cbv zeta.
destruct (sumSizes files <=? maxSize this); [now constructor|].
apply guarded_cleanBySize_loop. unfold images.
eapply Permutation_Forall; [symmetry; apply sortByMtime_perm | exact Hfiles].
Qed.

Lemma guarded_getUploadStats : guarded image anything (getUploadStats this now).
Proof.
unfold getUploadStats. apply guarded_try_catch; [|now constructor].
eapply guarded_bind; [apply guarded_getUploadFiles|].
intros files _. now constructor.
Qed.

Lemma guarded_runFullCleanup (schedule : list bool) :
guarded image anything (runFullCleanup this now schedule).
Proof.
unfold runFullCleanup, Promise_all2. apply guarded_try_catch; [|constructor].
eapply guarded_bind.
- eapply guarded_bind.
  + eapply guarded_together; [apply guarded_cleanOldFiles | apply guarded_cleanBySize].
  + instantiate (1 := anything).
    intros [[ra|] [rb|]] _; constructor. exact I.
- intros [ra rb] _. eapply guarded_bind; [apply guarded_getUploadStats|].
  intros st _. now constructor.
Qed.

End GuardedCleanup.

Section GuardedServer.
Variable this : manager.
Variable now : Z.
Variable denied : string -> bool.
Variable schedule : list bool.

Let image (nm : string) : bool := isImageFile this nm.

(** What a turn of the event loop may do to the directory. *)
Let shrinks (d d' : directory) : Prop :=
(forall f, In f d' -> In f d)
/\ (forall f, In f d -> image (name f) = false -> In f d').

Lemma shrinks_refl (d : directory) : shrinks d d.
Proof. split; auto. Qed.

Lemma shrinks_trans (d1 d2 d3 : directory) :
shrinks d1 d2 -> shrinks d2 d3 -> shrinks d1 d3.
Proof. intros [A1 B1] [A2 B2]. split; auto. Qed.

Lemma guarded_resume {A : Type} (Q : A -> Prop) (p : io A) (d : directory) :
guarded image Q p ->
guarded image Q (fst (resume denied p d)) /\ shrinks d (snd (resume denied p d)).
Proof.
intros Hp. inversion Hp as [a Ha| |k Hk|nm k Hk|nm k Hnm Hk]; subst; cbn [resume fst snd].
- split; [exact Hp | apply shrinks_refl].
- split; [exact Hp | apply shrinks_refl].
- split; [apply Hk | apply shrinks_refl].
- split; [apply Hk | apply shrinks_refl].
- unfold unlink. destruct (lookup nm d) as [f|]; [destruct (denied nm)|]; cbn [fst snd];
    (split; [apply Hk|]); try apply shrinks_refl.
  split; intros g Hg.
  + apply in_remove in Hg. tauto.
  + intros Himg. apply in_remove. split; [exact Hg|]. intros E.
    rewrite E in Himg. unfold image in *. congruence.
Qed.

Lemma guarded_resumeTask (t : task) (d : directory) :
guardedTask image t ->
guardedTask image (fst (resumeTask denied t d))
/\ shrinks d (snd (resumeTask denied t d)).
Proof.
destruct t as [p|p]; cbn [guardedTask resumeTask]; intros Hp;
  pose proof (guarded_resume anything p d Hp) as H;
  destruct (resume denied p d) as [p' d']; exact H.
Qed.

Lemma guarded_completes (i : nat) (tasks : list task) (d : directory) :
Forall (guardedTask image) tasks ->
Forall (guardedTask image) (fst (completes denied i tasks d))
/\ shrinks d (snd (completes denied i tasks d)).
Proof.
intros Htasks. revert i. induction Htasks as [|t rest Ht Hrest IH]; intros i.
- destruct i; cbn [completes fst snd]; (split; [constructor | apply shrinks_refl]).
- destruct i as [|j]; cbn [completes].
  + pose proof (guarded_resumeTask t d Ht) as [Ht' Hd].
    destruct (resumeTask denied t d) as [t' d']. cbn [fst snd] in *.
    split; [|exact Hd]. destruct (settled t'); [exact Hrest | now constructor].
  + specialize (IH j). destruct (completes denied j rest d) as [rest' d'].
    cbn [fst snd] in *. split; [constructor; tauto | tauto].
Qed.

Lemma guarded_scheduledCleanup :
guarded image anything (scheduledCleanup this now schedule).
Proof.
unfold scheduledCleanup. apply guarded_try_catch; [|now constructor].
eapply guarded_bind; [apply guarded_runFullCleanup|]. intros r _. now constructor.
Qed.

Lemma guarded_runCleanup : guarded image anything (runCleanup this now schedule).
Proof.
unfold runCleanup. apply guarded_try_catch; [apply guarded_runFullCleanup | constructor].
Qed.

Lemma guarded_handle (s : server) (e : event) :
Forall (guardedTask image) (inFlight s) ->
Forall (guardedTask image) (inFlight (handle this now denied schedule s e))
/\ shrinks (uploads s) (uploads (handle this now denied schedule s e)).
Proof.
intros Hs. destruct e as [| |i]; cbn [handle].
- cbn [inFlight uploads]. split; [|apply shrinks_refl].
  apply Forall_app. split; [exact Hs|]. constructor; [|constructor].
  apply guarded_scheduledCleanup.
- cbn [inFlight uploads]. split; [|apply shrinks_refl].
  apply Forall_app. split; [exact Hs|]. constructor; [|constructor].
  apply guarded_runCleanup.
- pose proof (guarded_completes i (inFlight s) (uploads s) Hs) as H.
  destruct (completes denied i (inFlight s) (uploads s)) as [tasks d]. exact H.
Qed.

Lemma guarded_serve (events : list event) (s : server) :
Forall (guardedTask image) (inFlight s) ->
Forall (guardedTask image) (inFlight (serve this now denied schedule s events))
/\ shrinks (uploads s) (uploads (serve this now denied schedule s events)).
Proof.
unfold serve. revert s. induction events as [|e events IH]; intros s Hs; cbn [fold_left].
- split; [exact Hs | apply shrinks_refl].
- destruct (guarded_handle s e Hs) as [Hs' Hd].
  destruct (IH _ Hs') as [Hs'' Hd']. split; [exact Hs''|].
  eapply shrinks_trans; eassumption.
Qed.

End GuardedServer.

(** X13.  Whatever the timer, the requests and the order in which the
    awaited operations complete, a server that starts with no cleanup in
    flight never adds an entry to the uploads directory and never removes
    an entry whose name [isImageFile] rejects. *)
Theorem serve_spares_other_files
        (this : manager) (now : Z) (denied : string -> bool) (schedule : list bool)
        (d : directory) (events : list event) :
  let s := serve this now denied schedule (mkServer d []) events in
  (forall f, In f (uploads s) -> In f d)
  /\ (forall f, In f d -> isImageFile this (name f) = false -> In f (uploads s)).
Proof.
  intros s. subst s.
  destruct (guarded_serve this now denied schedule events (mkServer d [])) as [_ H].
  - constructor.
  - exact H.
Qed.

(** X11.  The callback of the scheduler and [runInitialCleanup] never
    reject: they leave the directory as [runFullCleanup] leaves it and
    swallow its error; [runCleanup] rejects exactly when [runFullCleanup]
    does. *)
Theorem cleanup_callers_outcome
        (this : manager) (now : Z) (denied : string -> bool) (schedule : list bool)
        (d : directory) :
  let full := run denied (runFullCleanup this now schedule) d in
  run denied (scheduledCleanup this now schedule) d = (fst full, Some tt)
  /\ run denied (runInitialCleanup this now schedule) d = (fst full, Some (snd full))
  /\ run denied (runCleanup this now schedule) d = full.
Proof.
  intros full. subst full.
  unfold scheduledCleanup, runInitialCleanup, runCleanup.
  rewrite !run_try_catch, !run_bind.
  destruct (run denied (runFullCleanup this now schedule) d) as [d' [r|]]; cbn [run fst snd];
    repeat split; reflexivity.
Qed.

(** X12.  [getCleanupStats] never rejects and never changes the directory,
    whatever the directory holds and whichever entries cannot be unlinked:
    [getUploadStats] catches every error, so the handler of
    [getCleanupStats] is never reached. *)
Theorem getCleanupStats_never_rejects
        (this : manager) (now : Z) (denied : string -> bool) (d : directory) :
  exists st,
    run denied (getCleanupStats this now) d = (d, Some st)
    /\ run denied (getUploadStats this now) d = (d, Some st).
Proof.
  unfold getCleanupStats. rewrite run_try_catch.
  destruct (run_getUploadStats_any this now denied d) as [st ->]. now exists st.
Qed.

End GuardFacts.

(** * The placement on any frame *)

Module PlacementFacts.
Import ImageProcessor ImageProcessorFacts PipelineFacts.

(** The placement contains the transparent pixels of the frame. *)
Lemma placement_contains_transparent (r : raster) (x y : Z) :
  0 <= x < width r -> 0 <= y < height r ->
  isTransparent r x y = true -> inside (detectFramePlacement r) x y = true.
Proof.
  intros Hx Hy Ht. unfold detectFramePlacement, inside.
  destruct (hasTransparentArea (scanFrame r)) eqn:Hhas; cbn [negb orb].
  - destruct (belowFivePercent _); cbn [entireFrame Placement.left Placement.top
                                        Placement.width Placement.height].
    + repeat (apply andb_true_intro; split); lia.
    + destruct (scanFrame_box r Hhas) as [B1 [B2 [B3 [B4 [B5 _]]]]].
      destruct (B5 x y Hx Hy Ht) as [Bx By].
      repeat (apply andb_true_intro; split); lia.
  - cbn [entireFrame Placement.left Placement.top Placement.width Placement.height].
    repeat (apply andb_true_intro; split); lia.
Qed.

(** X14.  On every frame, whatever its alpha channel, its channel count and
    the length of its buffer, the placement is not empty, lies inside the
    frame and contains every pixel of the frame whose alpha is below 25:
    the minimum size and the clamp never cut the transparent area. *)
Theorem detectFramePlacement_covers_transparent (r : raster) :
  0 < width r -> 0 < height r ->
  let p := detectFramePlacement r in
  (0 <= Placement.left p /\ 0 <= Placement.top p
   /\ 0 < Placement.width p /\ 0 < Placement.height p
   /\ Placement.left p + Placement.width p <= width r
   /\ Placement.top p + Placement.height p <= height r)
  /\ (forall x y, 0 <= x < width r -> 0 <= y < height r ->
        isTransparent r x y = true -> inside p x y = true).
Proof.
  intros Hw Hh p. split; [exact (detectFramePlacement_within_frame r Hw Hh)|].
  intros x y Hx Hy Ht. now apply placement_contains_transparent.
Qed.

Lemma detectFramePlacement_covers_transparent_witness :
  let p := detectFramePlacement ImageScenarios.smallFrame in
  (0 <= Placement.left p /\ 0 <= Placement.top p
   /\ 0 < Placement.width p /\ 0 < Placement.height p
   /\ Placement.left p + Placement.width p <= width ImageScenarios.smallFrame
   /\ Placement.top p + Placement.height p <= height ImageScenarios.smallFrame)
  /\ (forall x y, 0 <= x < width ImageScenarios.smallFrame ->
        0 <= y < height ImageScenarios.smallFrame ->
        isTransparent ImageScenarios.smallFrame x y = true -> inside p x y = true).
Proof.
  apply (detectFramePlacement_covers_transparent ImageScenarios.smallFrame);
    reflexivity.
Defined.

(** X17.  [applyFrame] on a frame of positive size leaves no transparent
    pixel of the frame without photo: at each of them the composite is a
    pixel of the fitted photo, read inside the fitted photo, drawn over the
    pixel of the frame. *)
Theorem applyFrame_fills_transparent_area
        (lib : Sharp) (defaultQuality : Z) (photo : image) (frame : raster) :
  sharpContract lib ->
  0 < width frame -> 0 < height frame ->
  let placement := detectFramePlacement frame in
  let fitted := jpegCodec lib defaultQuality
                  (resizeCover lib photo (Placement.width placement)
                               (Placement.height placement)) in
  exists composed,
    fst (applyFrame lib defaultQuality photo frame) = Some composed
    /\ forall x y, 0 <= x < width frame -> 0 <= y < height frame ->
         isTransparent frame x y = true ->
         0 <= x - Placement.left placement < imageWidth fitted
         /\ 0 <= y - Placement.top placement < imageHeight fitted
         /\ pixelAt composed x y
            = blendOver lib (pixelAt fitted (x - Placement.left placement)
                                            (y - Placement.top placement))
                            (pixelAt (imageOfRaster frame) x y).
Proof.
  intros Hlib Hw Hh placement fitted.
  rewrite (applyFrame_composes lib defaultQuality photo frame Hlib Hw Hh).
  fold placement. fold fitted. eexists. split; [reflexivity|].
  intros x y Hx Hy Ht.
  pose proof (placement_contains_transparent frame x y Hx Hy Ht) as Hin.
  fold placement in Hin.
  destruct Hlib as [Hresize Hjpeg].
  assert (Fw : imageWidth fitted = Placement.width placement).
  { unfold fitted. rewrite (proj1 (Hjpeg _ _)). apply Hresize. }
  assert (Fh : imageHeight fitted = Placement.height placement).
  { unfold fitted. rewrite (proj2 (Hjpeg _ _)). apply Hresize. }
  cbn [pixelAt]. rewrite Hin, Fw, Fh.
  unfold inside in Hin.
  apply andb_true_iff in Hin. destruct Hin as [Hin H4].
  apply andb_true_iff in Hin. destruct Hin as [Hin H3].
  apply andb_true_iff in Hin. destruct Hin as [H1 H2].
  repeat split; try reflexivity; lia.
Qed.

Lemma applyFrame_fills_transparent_area_witness :
  exists composed,
    fst (applyFrame toySharp 95 ImageScenarios.whitePhoto ImageScenarios.smallFrame)
    = Some composed
    /\ pixelAt composed 3 4 = [254; 254; 254]
    /\ pixelAt composed 6 6 = [254; 254; 254].
Proof.
  destruct (applyFrame_fills_transparent_area toySharp 95 ImageScenarios.whitePhoto
              ImageScenarios.smallFrame toySharp_contract eq_refl eq_refl)
    as [composed [Hrun Hfill]].
  exists composed. split; [exact Hrun|]. split.
  - destruct (Hfill 3 4) as [_ [_ ->]];
      [change (0 <= 3 < 10); lia | change (0 <= 4 < 10); lia | reflexivity | reflexivity].
  - destruct (Hfill 6 6) as [_ [_ ->]];
      [change (0 <= 6 < 10); lia | change (0 <= 6 < 10); lia | reflexivity | reflexivity].
Defined.

End PlacementFacts.

(** * File names of the photos *)

Module NameFacts.
Import Node CleanupManager ImageNames.
Local Open Scope string_scope.

Lemma length_append (a b : string) :
  String.length (a ++ b) = (String.length a + String.length b)%nat.
Proof. induction a as [|c a IH]; simpl; [reflexivity | now rewrite IH]. Qed.

Lemma substring_all (s : string) : substring 0 (String.length s) s = s.
Proof. induction s as [|c s IH]; simpl; [reflexivity | now rewrite IH]. Qed.

Lemma substring_prefix (a b : string) : substring 0 (String.length a) (a ++ b) = a.
Proof.
  induction a as [|c a IH]; simpl; [now destruct b | now rewrite IH].
Qed.

Lemma substring_suffix (a b : string) :
  substring (String.length a) (String.length b) (a ++ b) = b.
Proof. induction a as [|c a IH]; simpl; [apply substring_all | exact IH]. Qed.

Lemma length_dashed (s : string) : String.length (dashed s) = String.length s.
Proof. induction s as [|c s IH]; simpl; [reflexivity | now rewrite IH]. Qed.

Lemma dashed_append (a b : string) : dashed (a ++ b) = dashed a ++ dashed b.
Proof. induction a as [|c a IH]; simpl; [reflexivity | now rewrite IH]. Qed.

Lemma get_dashed (s : string) (n : nat) (c : ascii) :
  String.get n (dashed s) = Some c -> c = "-"%char \/ String.get n s = Some c.
Proof.
  revert n. induction s as [|x s IH]; intros n; simpl; [discriminate|].
  destruct n as [|n]; [|apply IH].
  destruct (Ascii.eqb x ":" || Ascii.eqb x "."); intros H; inversion H; auto.
Qed.

Lemma get_length (s : string) (n : nat) (c : ascii) :
  String.get n s = Some c -> (n < String.length s)%nat.
Proof.
  revert n. induction s as [|x s IH]; intros n; simpl; [discriminate|].
  destruct n as [|n]; [lia|]. intros H. apply IH in H. lia.
Qed.

Lemma get_some (s : string) (n : nat) :
  (n < String.length s)%nat -> exists c, String.get n s = Some c.
Proof.
  revert n. induction s as [|x s IH]; intros n; simpl; [lia|].
  destruct n as [|n]; [now exists x|]. intros H. apply IH. lia.
Qed.

Lemma get_slice (s : string) (stop : Z) (n : nat) (c : ascii) :
  String.get n (slice s 0 stop) = Some c -> String.get n s = Some c.
Proof.
  unfold slice. cbn [Z.ltb Z.compare]. intros H.
  destruct (Nat.lt_ge_cases n
              (Z.to_nat (Z.max ((if (stop <? 0)%Z
                                 then Z.max (Z.of_nat (String.length s) + stop) 0
                                 else Z.min stop (Z.of_nat (String.length s)))
                                - Z.min 0 (Z.of_nat (String.length s))) 0)))
    as [Hlt|Hge].
  - rewrite substring_correct1 in H by exact Hlt.
    replace (Z.to_nat (Z.min 0 (Z.of_nat (String.length s)))) with 0%nat in H by lia.
    now rewrite Nat.add_0_r in H.
  - rewrite substring_correct2 in H by exact Hge. discriminate.
Qed.

Lemma lacks_get (c : ascii) (s : string) :
  lacks c s -> forall n, String.get n s <> Some c.
Proof.
  unfold lacks. induction s as [|x s IH]; simpl; intros H n; [discriminate|].
  apply orb_false_iff in H. destruct H as [Hx Hs].
  destruct n as [|n]; [|now apply IH].
  intros E. inversion E; subst x. rewrite Ascii.eqb_refl in Hx. discriminate.
Qed.

(** *** [path.extname] on a name that ends in an extension *)

Section Extname.
Variable base ext : string.
Variable last : ascii.

Let path : string := base ++ "." ++ ext.
Let n : nat := String.length base.
Let len : nat := String.length path.

Hypothesis base_last : String.get (n - 1) base = Some last.
Hypothesis last_no_slash : last <> "/"%char.
Hypothesis ext_not_empty : ext <> EmptyString.
Hypothesis ext_no_dot : lacks "." ext.
Hypothesis ext_no_slash : lacks "/" ext.

Let found (st : extnameState) : Prop :=
startDot st = Z.of_nat n /\ endIndex st = Z.of_nat len
/\ (preDotState st = 1 \/ preDotState st = -1).

Lemma len_eq : len = (n + 1 + String.length ext)%nat.
Proof. unfold len, path, n. rewrite !length_append. simpl. lia. Qed.

Lemma n_positive : (0 < n)%nat.
Proof. unfold n. apply get_length in base_last. lia. Qed.

Lemma ext_length : (0 < String.length ext)%nat.
Proof. destruct ext; [contradiction | simpl; lia]. Qed.

Lemma get_path_ext (j : nat) : String.get (n + 1 + j) path = String.get j ext.
Proof.
unfold path, n.
rewrite (append_correct2 ("."%string) ext j).
rewrite (append_correct2 base ("." ++ ext) (j + String.length ".")).
f_equal. simpl. lia.
Qed.

Lemma get_path_dot : String.get n path = Some "."%char.
Proof.
unfold path, n.
change (String.length base) with (0 + String.length base)%nat.
now rewrite <- (append_correct2 base ("." ++ ext) 0).
Qed.

Lemma get_path_last : String.get (n - 1) path = Some last.
Proof.
unfold path. rewrite <- append_correct1; [exact base_last|].
pose proof n_positive. unfold n in *. lia.
Qed.

Lemma eqb_neq (a b : ascii) : a <> b -> Ascii.eqb a b = false.
Proof. intros H. destruct (Ascii.eqb_spec a b); [contradiction | reflexivity]. Qed.

(** The characters of the extension: the first one visited sets [end]. *)
Lemma extnameStep_ext (st : extnameState) (j : nat) :
(j < String.length ext)%nat ->
st = mkExtnameState (-1) 0 (-1) true 0 false
\/ st = mkExtnameState (-1) 0 (Z.of_nat len) false 0 false ->
(st = mkExtnameState (-1) 0 (-1) true 0 false -> (n + 1 + j + 1 = len)%nat) ->
extnameStep path st (Z.of_nat (n + 1 + j))
= mkExtnameState (-1) 0 (Z.of_nat len) false 0 false.
Proof.
intros Hj Hst Hfirst. unfold extnameStep.
rewrite Nat2Z.id, get_path_ext.
destruct (get_some ext j Hj) as [c Hc]. rewrite Hc.
assert (Hdot : c <> "."%char) by (intros ->; exact (lacks_get _ _ ext_no_dot j Hc)).
assert (Hslash : c <> "/"%char) by (intros ->; exact (lacks_get _ _ ext_no_slash j Hc)).
rewrite (eqb_neq _ _ Hdot), (eqb_neq _ _ Hslash).
destruct Hst as [->| ->]; cbn.
- specialize (Hfirst eq_refl). f_equal. lia.
- destruct (Z.of_nat len =? -1)%Z eqn:E; [lia | reflexivity].
Qed.

Lemma fold_ext (k a : nat) :
(n + 1 <= a)%nat -> (a + S k = len)%nat ->
fold_left (extnameStep path) (rev (map Z.of_nat (seq a (S k))))
          (mkExtnameState (-1) 0 (-1) true 0 false)
= mkExtnameState (-1) 0 (Z.of_nat len) false 0 false.
Proof.
pose proof len_eq as Hlen.
revert a. induction k as [|k IH]; intros a Ha Hk.
- cbn [seq map rev app fold_left].
  replace a with (n + 1 + (a - (n + 1)))%nat by lia.
  apply extnameStep_ext; [lia | now left | lia].
- replace (seq a (S (S k))) with (a :: seq (S a) (S k)) by reflexivity.
  rewrite map_cons. cbn [rev]. rewrite fold_left_app. cbn [fold_left].
  rewrite IH by lia.
  replace a with (n + 1 + (a - (n + 1)))%nat by lia.
  apply extnameStep_ext; [lia | now right | discriminate].
Qed.

Lemma extnameStep_found (st : extnameState) (i : Z) :
found st -> found (extnameStep path st i).
Proof.
intros [H1 [H2 H3]]. unfold extnameStep.
destruct (stopped st); [now repeat split|].
destruct (String.get (Z.to_nat i) path) as [c|]; [|now repeat split].
assert (Hend : (endIndex st =? -1)%Z = false) by (rewrite H2; lia).
assert (Hdot : (startDot st =? -1)%Z = false) by (rewrite H1; lia).
destruct (Ascii.eqb c "/").
- destruct (negb (matchedSlash st)); now repeat split.
- rewrite Hend. destruct (Ascii.eqb c ".").
  + rewrite Hdot. destruct (negb (preDotState st =? 1)%Z); repeat split; cbn; auto.
  + rewrite Hdot. cbn [negb]. repeat split; cbn; auto.
Qed.

Lemma fold_found (l : list Z) (st : extnameState) :
found st -> found (fold_left (extnameStep path) l st).
Proof.
revert st. induction l as [|i l IH]; intros st H; [exact H|].
cbn [fold_left]. apply IH, extnameStep_found, H.
Qed.

Lemma fold_path :
found (fold_left (extnameStep path) (rev (range (Z.of_nat (String.length path))))
                 (mkExtnameState (-1) 0 (-1) true 0 false)).
Proof.
pose proof n_positive as Hn. pose proof ext_length as Hext. pose proof len_eq as Hlen.
fold len. unfold range. rewrite Nat2Z.id.
replace (seq 0 len) with (seq 0 ((n - 1) + (1 + (1 + S (String.length ext - 1)))))
  by (f_equal; lia).
rewrite !seq_app, !map_app, !rev_app_distr, !fold_left_app.
rewrite fold_ext by lia.
cbn [seq map rev app fold_left].
replace (0 + (n - 1) + 1)%nat with n by lia.
replace (0 + (n - 1))%nat with (n - 1)%nat by lia.
set (s2 := extnameStep path (mkExtnameState (-1) 0 (Z.of_nat len) false 0 false) (Z.of_nat n)).
assert (Hs2 : s2 = mkExtnameState (Z.of_nat n) 0 (Z.of_nat len) false 0 false).
{ unfold s2, extnameStep. cbn [stopped]. rewrite Nat2Z.id, get_path_dot. cbn.
  destruct (Z.of_nat len =? -1)%Z eqn:E; [lia | reflexivity]. }
rewrite Hs2. clear s2 Hs2.
apply fold_found.
unfold extnameStep. cbn [stopped]. rewrite Nat2Z.id, get_path_last.
rewrite (eqb_neq _ _ last_no_slash). cbn [endIndex startDot].
assert (E : (Z.of_nat len =? -1)%Z = false) by lia.
assert (E' : (Z.of_nat n =? -1)%Z = false) by lia.
rewrite E. cbn [endIndex startDot startPart matchedSlash preDotState]. rewrite E'.
destruct (Ascii.eqb last "."); cbn; repeat split; auto.
Qed.

Lemma extname_suffix : extname path = "." ++ ext.
Proof.
pose proof n_positive as Hn. pose proof ext_length as Hext. pose proof len_eq as Hlen.
pose proof fold_path as [F1 [F2 F3]].
unfold extname. set (st := fold_left _ _ _) in *. clearbody st. cbv zeta.
rewrite F1, F2.
assert (E1 : (Z.of_nat n =? -1)%Z = false) by lia.
assert (E2 : (Z.of_nat len =? -1)%Z = false) by lia.
assert (E3 : (preDotState st =? 0)%Z = false) by (destruct F3 as [-> | ->]; reflexivity).
assert (E4 : (Z.of_nat n =? Z.of_nat len - 1)%Z = false) by lia.
rewrite E1, E2, E3, E4, andb_false_r. cbn [orb andb].
rewrite Nat2Z.id.
replace (Z.to_nat (Z.of_nat len - Z.of_nat n)) with (String.length ("." ++ ext)) by (simpl; lia).
unfold path, n. apply substring_suffix.
Qed.

End Extname.

Lemma append_assoc (a b c : string) : (a ++ b) ++ c = a ++ b ++ c.
Proof. induction a as [|x a IH]; simpl; [reflexivity | now rewrite IH]. Qed.

Lemma append_empty (a : string) : a ++ EmptyString = a.
Proof. induction a as [|x a IH]; simpl; [reflexivity | now rewrite IH]. Qed.

Lemma slice_drop (a b : string) :
  (0 < String.length b)%nat ->
  slice (a ++ b) 0 (- Z.of_nat (String.length b)) = a.
Proof.
  intros Hb. unfold slice. rewrite length_append. cbn [Z.ltb Z.compare].
  destruct (- Z.of_nat (String.length b) <? 0)%Z eqn:E; [|lia].
  replace (Z.to_nat (Z.min 0 (Z.of_nat (String.length a + String.length b)))) with 0%nat by lia.
  replace (Z.to_nat _) with (String.length a) by lia.
  apply substring_prefix.
Qed.

Lemma generateTimestamp_isoString (upToSeconds milliseconds : string) :
  String.length milliseconds = 3%nat ->
  generateTimestamp (isoString upToSeconds milliseconds) = dashed upToSeconds.
Proof.
  intros Hms. unfold generateTimestamp, isoString. rewrite dashed_append.
  replace (-5)%Z with (- Z.of_nat (String.length (dashed ("." ++ milliseconds ++ "Z")))).
  - apply slice_drop. rewrite length_dashed. simpl. lia.
  - rewrite length_dashed. simpl. rewrite length_append, Hms. reflexivity.
Qed.

(** The name ends in a character that is not a slash, then the dot. *)
Lemma generateTimestamp_last (prefix iso : string) :
  lacks "/" iso ->
  let base := prefix ++ "_" ++ generateTimestamp iso in
  exists last, String.get (String.length base - 1) base = Some last /\ last <> "/"%char.
Proof.
  intros Hiso base. subst base. rewrite <- append_assoc.
  set (ts := generateTimestamp iso).
  destruct (Nat.eq_dec (String.length ts) 0) as [E|E].
  - destruct ts; [|discriminate]. rewrite append_empty, length_append. simpl.
    exists "_"%char. split; [|discriminate].
    replace (String.length prefix + 1 - 1)%nat with (0 + String.length prefix)%nat by lia.
    now rewrite <- append_correct2.
  - destruct (get_some ts (String.length ts - 1)) as [c Hc]; [lia|].
    exists c. split.
    + rewrite length_append.
      replace (String.length (prefix ++ "_") + String.length ts - 1)%nat
        with (String.length ts - 1 + String.length (prefix ++ "_"))%nat by lia.
      now rewrite <- append_correct2.
    + unfold ts, generateTimestamp in Hc. apply get_slice, get_dashed in Hc.
      destruct Hc as [-> | Hc]; [discriminate|].
      intros ->. exact (lacks_get _ _ Hiso _ Hc).
Qed.

Lemma generateFilename_extname (prefix extension : option string) (iso : string) :
  lacks "/" iso ->
  let ext := match extension with Some e => e | None => "jpg" end in
  ext <> EmptyString -> lacks "." ext -> lacks "/" ext ->
  extname (generateFilename prefix extension iso) = "." ++ ext.
Proof.
  intros Hiso ext H1 H2 H3. unfold generateFilename. fold ext.
  set (p := match prefix with Some p => p | None => "photo" end).
  destruct (generateTimestamp_last p iso Hiso) as [last [Hlast Hslash]].
  replace (p ++ "_" ++ generateTimestamp iso ++ "." ++ ext)
    with ((p ++ "_" ++ generateTimestamp iso) ++ "." ++ ext)
    by now rewrite !append_assoc.
  now apply (extname_suffix _ ext last).
Qed.

Lemma lacks_jpg (c : ascii) : c = "."%char \/ c = "/"%char -> lacks c "jpg".
Proof. intros [-> | ->]; reflexivity. Qed.

(** X15.  The time stamp keeps the date and the time to the second, with
    dashes for the colons, and drops the milliseconds: two photos taken in
    the same second get the same file name. *)
Theorem generateFilename_same_second
        (prefix extension : option string) (upToSeconds ms ms' : string) :
  String.length ms = 3%nat -> String.length ms' = 3%nat ->
  generateTimestamp (isoString upToSeconds ms) = dashed upToSeconds
  /\ generateFilename prefix extension (isoString upToSeconds ms)
     = generateFilename prefix extension (isoString upToSeconds ms').
Proof.
  intros Hms Hms'. split; [now apply generateTimestamp_isoString|].
  unfold generateFilename. now rewrite !generateTimestamp_isoString.
Qed.

(** X16.  Whatever the prefix, a name given by [generateFilename] has the
    extension it was asked for; with the default extension it is one of
    the upload files of the cleanup. *)
Theorem generateFilename_is_upload_file (iso : string) :
  lacks "/" iso ->
  (forall prefix, isImageFile constructor (generateFilename prefix None iso) = true)
  /\ (forall prefix ext,
        ext <> EmptyString -> lacks "." ext -> lacks "/" ext ->
        extname (generateFilename prefix (Some ext) iso) = "." ++ ext).
Proof.
  intros Hiso. split.
  - intros prefix. unfold isImageFile.
    rewrite (generateFilename_extname prefix None iso Hiso);
      [reflexivity | discriminate | apply lacks_jpg; auto | apply lacks_jpg; auto].
  - intros prefix ext H1 H2 H3.
    now apply (generateFilename_extname prefix (Some ext) iso Hiso).
Qed.

Lemma generateFilename_same_second_witness :
  generateTimestamp "2026-11-03T07:54:35.462Z" = "2026-11-03T07-54-35"
  /\ generateFilename None None "2026-11-03T07:54:35.462Z"
     = generateFilename None None "2026-11-03T07:54:35.977Z".
Proof.
  exact (generateFilename_same_second None None "2026-11-03T07:54:35" "462" "977"
           eq_refl eq_refl).
Defined.

Lemma generateFilename_is_upload_file_witness :
  (forall prefix,
      isImageFile constructor (generateFilename prefix None "2026-11-03T07:54:35.462Z")
      = true)
  /\ (forall prefix ext,
        ext <> EmptyString -> lacks "." ext -> lacks "/" ext ->
        extname (generateFilename prefix (Some ext) "2026-11-03T07:54:35.462Z")
        = "." ++ ext).
Proof.
  apply (generateFilename_is_upload_file "2026-11-03T07:54:35.462Z").
  reflexivity.
Defined.

End NameFacts.

(** * The age of the oldest file in words *)

Module DurationFacts.
Import DurationFormat.

Lemma remainder_millis (ms m : Z) :
  0 <= ms -> 0 < m ->
  Qfloor (remainder (ms # 1000) (inject_Z m)) = (ms / 1000) mod m
  /\ forall k, 0 < k ->
       Qfloor (remainder (ms # 1000) (inject_Z m) / inject_Z k) = ((ms / 1000) mod m) / k.
Proof.
  intros Hms Hm.
  assert (Htr : truncate ((ms # 1000) / inject_Z m) = ms / (1000 * m)).
  { unfold truncate.
    destruct m as [|p|p]; try lia.
    cbv [Qle_bool Qdiv Qinv Qmult inject_Z Qnum Qden Qfloor].
    destruct (Z.leb_spec (0 * Z.pos (1000 * p)) (ms * 1 * 1)) as [_|E]; [|lia].
    f_equal; lia. }
  unfold remainder. rewrite Htr.
  set (h := ms / (1000 * m)).
  assert (Hq : ((ms # 1000) - inject_Z m * inject_Z h == (ms - 1000 * m * h) # 1000)%Q).
  { unfold Qeq, Qminus, Qplus, Qopp, Qmult, inject_Z. cbn [Qnum Qden]. lia. }
  assert (Hrem : ms - 1000 * m * h = ms mod (1000 * m)).
  { unfold h. rewrite Z.mod_eq by lia. lia. }
  assert (Hmod : (ms mod (1000 * m)) / 1000 = (ms / 1000) mod m).
  { rewrite Z.rem_mul_r by lia.
    rewrite Z.mul_comm, Z.div_add by lia.
    rewrite Z.div_small by (apply Z.mod_pos_bound; lia). lia. }
  split.
  - rewrite (Qfloor_comp _ _ Hq). cbn [Qfloor]. now rewrite Hrem, Hmod.
  - intros k Hk.
    assert (Hq' : (((ms # 1000) - inject_Z m * inject_Z h) / inject_Z k
                   == (ms - 1000 * m * h) # (1000 * Z.to_pos k))%Q).
    { rewrite Hq. destruct k as [|p|p]; try lia.
      unfold Qeq, Qdiv, Qinv, Qmult, inject_Z. cbn [Qnum Qden Z.to_pos]. lia. }
    rewrite (Qfloor_comp _ _ Hq'). cbn [Qfloor].
    rewrite Hrem, <- Hmod, Pos2Z.inj_mul, Z2Pos.id by lia.
    now rewrite Z.div_div by lia.
Qed.

(** X7.  For an age of [ms] milliseconds that is not negative, the parts
    are the hours, minutes and seconds of its whole seconds; the hours are
    left out below one hour and the minutes below one minute. *)
Theorem formatDuration_whole_seconds (ms : Z) :
  0 <= ms ->
  let total := ms / 1000 in
  formatDuration (ms # 1000)
  = if 3600 <=? total
    then (show (total / 3600) ++ "h " ++ show (total mod 3600 / 60) ++ "m "
          ++ show (total mod 60) ++ "s")%string
    else if 60 <=? total
    then (show (total / 60) ++ "m " ++ show (total mod 60) ++ "s")%string
    else (show total ++ "s")%string.
Proof.
  intros Hms total. unfold formatDuration.
  destruct (remainder_millis ms 3600 Hms eq_refl) as [_ Hmin].
  destruct (remainder_millis ms 60 Hms eq_refl) as [Hsec _].
  change (3600%Q) with (inject_Z 3600). change (60%Q) with (inject_Z 60).
  rewrite (Hmin 60 eq_refl), Hsec. fold total.
  assert (Hh : Qfloor ((ms # 1000) / inject_Z 3600) = total / 3600).
  { cbv [Qdiv Qinv Qmult inject_Z Qnum Qden Qfloor]. unfold total.
    rewrite Z.div_div by lia. f_equal; lia. }
  rewrite Hh.
  assert (Htotal : 0 <= total) by (apply Z.div_pos; lia).
  destruct (Z.leb_spec 3600 total) as [H1|H1].
  - replace (total / 3600 >? 0) with true; [reflexivity|].
    symmetry. apply Z.gtb_lt. apply Z.div_str_pos. lia.
  - replace (total / 3600 >? 0) with false
      by (symmetry; rewrite Z.div_small by lia; reflexivity).
    rewrite (Z.mod_small total 3600) by lia.
    destruct (Z.leb_spec 60 total) as [H2|H2].
    + replace (total / 60 >? 0) with true; [reflexivity|].
      symmetry. apply Z.gtb_lt. apply Z.div_str_pos. lia.
    + replace (total / 60 >? 0) with false
        by (symmetry; rewrite Z.div_small by lia; reflexivity).
      now rewrite (Z.mod_small total 60) by lia.
Qed.

Lemma formatDuration_whole_seconds_witness :
  0 <= 3725999
  /\ formatDuration (3725999 # 1000) = "1h 2m 5s"%string
  /\ formatDuration (125000 # 1000) = "2m 5s"%string
  /\ formatDuration (999 # 1000) = "0s"%string.
Proof.
  split; [lia|]. split; [|split].
  - exact (formatDuration_whole_seconds 3725999 ltac:(lia)).
  - exact (formatDuration_whole_seconds 125000 ltac:(lia)).
  - exact (formatDuration_whole_seconds 999 ltac:(lia)).
Defined.

End DurationFacts.
